(** * E2 subscription-task client: a shallow embedding of
      [pkg/e2/subscriptiontask/client.go] and the properties of its
      request construction, connection set-up and watch relaying. *)

From Stdlib Require Import List String Bool Arith Lia.
Import ListNotations.
Open Scope string_scope.
Open Scope list_scope.

(** ** Go values *)

(** A run-time panic of the Go program. *)
Inductive panic : Type :=
| NilDereference
| IndexOutOfRange (index len : nat)
| SendOnClosedChannel
| CloseOfClosedChannel.

(** The outcome of running a Go function body: it returns, or it panics. *)
Inductive go (A : Type) : Type :=
| Return (a : A)
| Panic (p : panic).
Arguments Return {A} a.
Arguments Panic {A} p.

(** gRPC status codes (package [codes]); the client never inspects them. *)
Module codes.
Inductive Code : Type :=
| Canceled | Unknown | InvalidArgument | DeadlineExceeded | NotFound
| AlreadyExists | PermissionDenied | Unavailable | Internal.
End codes.

(** Go [error] values.  [io_EOF] and [context_Canceled] are the two sentinel
    values the watch loop compares against with [==]; every other error is
    a distinct value. *)
Inductive error : Type :=
| io_EOF
| context_Canceled
| context_DeadlineExceeded
| status_Error (c : codes.Code) (msg : string)
| errors_New (msg : string).

(** [context.Context] is only threaded through to the transport. *)
Inductive Context : Type :=
| context_Background
| context_WithCancel (parent : Context).

(** ** Wire types (packages [subapi], [epapi], [subtaskapi]) *)

(** Modelled from the spec: the identifier types of the onos-e2sub API are
    opaque identifiers; their zero value is the empty string. *)
Module subapi.
Definition ID : Type := string.
End subapi.

Module epapi.
Definition ID : Type := string.
End epapi.

(** Modelled from the spec: the messages of the subscription-task service,
    with exactly the fields the client reads or writes. *)
Module subtaskapi.
Definition ID : Type := string.

Record SubscriptionTask : Type := {
  task_ID : ID;
  task_SubscriptionID : subapi.ID;
  task_EndpointID : epapi.ID
}.

Inductive EventType : Type := EventNone | EventCreated | EventUpdated | EventRemoved.

Record Event : Type := {
  event_Type : EventType;
  event_Task : SubscriptionTask
}.

Record GetSubscriptionTaskRequest : Type := { get_ID : ID }.

(** [Task] is a pointer in the response message. *)
Record GetSubscriptionTaskResponse : Type := { Task : option SubscriptionTask }.

Record ListSubscriptionTasksRequest : Type := {
  list_SubscriptionID : subapi.ID;
  list_EndpointID : epapi.ID
}.

Record ListSubscriptionTasksResponse : Type := { Tasks : list SubscriptionTask }.

Record WatchSubscriptionTasksRequest : Type := {
  watch_SubscriptionID : subapi.ID;
  watch_EndpointID : epapi.ID
}.

Record WatchSubscriptionTasksResponse : Type := { Event_ : Event }.

(** What one call of [stream.Recv()] returns: a response pointer, which
    may be nil, and an error, which may be nil. *)
Definition RecvResult : Type := (option WatchSubscriptionTasksResponse * option error)%type.

(** A client-side watch stream, given by what its successive [Recv] calls
    return.  When the list is used up the next [Recv] never returns. *)
Definition WatchSubscriptionTasksClient : Type := list RecvResult.

(** The generated service stub [E2SubscriptionTaskServiceClient]: each
    method returns a (value, error) pair, as in Go. *)
Record E2SubscriptionTaskServiceClient : Type := {
  GetSubscriptionTask :
    Context -> GetSubscriptionTaskRequest ->
    option GetSubscriptionTaskResponse * option error;
  ListSubscriptionTasks :
    Context -> ListSubscriptionTasksRequest ->
    option ListSubscriptionTasksResponse * option error;
  WatchSubscriptionTasks :
    Context -> WatchSubscriptionTasksRequest ->
    option WatchSubscriptionTasksClient * option error
}.
End subtaskapi.

(** ** Filter options *)

Record listOptions : Type := {
  lo_subscriptionID : subapi.ID;
  lo_endpointID : epapi.ID
}.

Record watchOptions : Type := {
  wo_subscriptionID : subapi.ID;
  wo_endpointID : epapi.ID
}.

(** [&listOptions{}] and [&watchOptions{}]: every field at its zero value. *)
Definition zero_listOptions : listOptions :=
  {| lo_subscriptionID := EmptyString; lo_endpointID := EmptyString |}.
Definition zero_watchOptions : watchOptions :=
  {| wo_subscriptionID := EmptyString; wo_endpointID := EmptyString |}.

(** The two option interfaces.  The Go methods mutate the options struct
    through a pointer; here they return the updated struct. *)
Class ListOption (O : Type) : Type := applyList : O -> listOptions -> listOptions.
Class WatchOption (O : Type) : Type := applyWatch : O -> watchOptions -> watchOptions.

Record filterSubscriptionOption : Type := { subID : subapi.ID }.
Record filterEndpointOption : Type := { epID : epapi.ID }.

#[export] Instance filterSubscriptionOption_applyList : ListOption filterSubscriptionOption :=
  fun o options =>
    {| lo_subscriptionID := subID o; lo_endpointID := lo_endpointID options |}.

#[export] Instance filterSubscriptionOption_applyWatch : WatchOption filterSubscriptionOption :=
  fun o options =>
    {| wo_subscriptionID := subID o; wo_endpointID := wo_endpointID options |}.

#[export] Instance filterEndpointOption_applyList : ListOption filterEndpointOption :=
  fun o options =>
    {| lo_subscriptionID := lo_subscriptionID options; lo_endpointID := epID o |}.

#[export] Instance filterEndpointOption_applyWatch : WatchOption filterEndpointOption :=
  fun o options =>
    {| wo_subscriptionID := wo_subscriptionID options; wo_endpointID := epID o |}.

(** [FilterOption] embeds both interfaces; its only implementations are the
    two unexported struct types above. *)
Inductive FilterOption : Type :=
| OfSubscription (o : filterSubscriptionOption)
| OfEndpoint (o : filterEndpointOption).

#[export] Instance FilterOption_applyList : ListOption FilterOption :=
  fun opt options =>
    match opt with
    | OfSubscription o => applyList o options
    | OfEndpoint o => applyList o options
    end.

#[export] Instance FilterOption_applyWatch : WatchOption FilterOption :=
  fun opt options =>
    match opt with
    | OfSubscription o => applyWatch o options
    | OfEndpoint o => applyWatch o options
    end.

Definition WithSubscriptionID (id : subapi.ID) : FilterOption :=
  OfSubscription {| subID := id |}.

Definition WithEndpointID (id : epapi.ID) : FilterOption :=
  OfEndpoint {| epID := id |}.

(** [for _, opt := range opts { opt.applyList(options) }] *)
Fixpoint rangeApplyList (opts : list FilterOption) (options : listOptions) : listOptions :=
  match opts with
  | [] => options
  | opt :: rest => rangeApplyList rest (applyList opt options)
  end.

(** [for _, opt := range opts { opt.applyWatch(options) }] *)
Fixpoint rangeApplyWatch (opts : list FilterOption) (options : watchOptions) : watchOptions :=
  match opts with
  | [] => options
  | opt :: rest => rangeApplyWatch rest (applyWatch opt options)
  end.

(** The request [List] builds from its options. *)
Definition listRequest (opts : list FilterOption) : subtaskapi.ListSubscriptionTasksRequest :=
  let options := rangeApplyList opts zero_listOptions in
  {| subtaskapi.list_SubscriptionID := lo_subscriptionID options;
     subtaskapi.list_EndpointID := lo_endpointID options |}.

(** The request [Watch] builds from its options. *)
Definition watchRequest (opts : list FilterOption) : subtaskapi.WatchSubscriptionTasksRequest :=
  let options := rangeApplyWatch opts zero_watchOptions in
  {| subtaskapi.watch_SubscriptionID := wo_subscriptionID options;
     subtaskapi.watch_EndpointID := wo_endpointID options |}.


(** ** Effects: external calls and panics *)

(** Transport packages, reduced to what [NewClient] passes around. *)
Module tls.
Record Config : Type := { ServerName : string }.
End tls.

Module credentials.
Inductive TransportCredentials : Type := NewTLS (c : option tls.Config).
End credentials.

Module grpc.
Inductive DialOption : Type :=
| WithTransportCredentials (creds : credentials.TransportCredentials).

Record ClientConn : Type := { Target : string }.
End grpc.

(** The calls the client makes to its collaborators, in program order. *)
Inductive call : Type :=
| Call_GetClientCredentials
| Call_DialContext (ctx : Context) (target : string) (opts : list grpc.DialOption)
| Call_GetSubscriptionTask (ctx : Context) (req : subtaskapi.GetSubscriptionTaskRequest)
| Call_ListSubscriptionTasks (ctx : Context) (req : subtaskapi.ListSubscriptionTasksRequest)
| Call_WatchSubscriptionTasks (ctx : Context) (req : subtaskapi.WatchSubscriptionTasksRequest).

(** A computation that makes external calls and then returns or panics. *)
Record traced (A : Type) : Type := {
  calls : list call;
  outcome : go A
}.

Arguments calls {A} t.
Arguments outcome {A} t.

Definition ret {A : Type} (a : A) : traced A :=
  {| calls := []; outcome := Return a |}.

Definition bind {A B : Type} (m : traced A) (k : A -> traced B) : traced B :=
  match outcome m with
  | Return a => {| calls := calls m ++ calls (k a); outcome := outcome (k a) |}
  | Panic p => {| calls := calls m; outcome := Panic p |}
  end.

(** An external call [c] that answers [v]. *)
Definition extern {A : Type} (c : call) (v : A) : traced A :=
  {| calls := [c]; outcome := Return v |}.

Definition lift {A : Type} (g : go A) : traced A :=
  {| calls := []; outcome := g |}.

Notation "x <- m ;; k" := (bind m (fun x => k))
  (at level 61, m at next level, right associativity).
Notation "' pat <- m ;; k" := (bind m (fun x => match x with pat => k end))
  (at level 61, pat pattern, m at next level, right associativity).

(** Following a pointer or calling a method on an interface value. *)
Definition deref {A : Type} (p : option A) : go A :=
  match p with
  | Some a => Return a
  | None => Panic NilDereference
  end.

(** The index expression [s[i]]. *)
Definition slice_index {A : Type} (s : list A) (i : nat) : go A :=
  match nth_error s i with
  | Some a => Return a
  | None => Panic (IndexOutOfRange i (List.length s))
  end.

(** ** Channels *)

(** A channel is represented by the operations completed on it so far,
    oldest first.  The receiving side is taken to be always ready, so a
    send on an open channel completes. *)
Inductive chan_op : Type :=
| ChanSend (e : subtaskapi.Event)
| ChanClose.

Definition chan : Type := list chan_op.

Definition is_close (op : chan_op) : bool :=
  match op with
  | ChanClose => true
  | ChanSend _ => false
  end.

Definition chan_closed (ch : chan) : bool := existsb is_close ch.

(** [ch <- e] *)
Definition chan_send (ch : chan) (e : subtaskapi.Event) : go chan :=
  if chan_closed ch then Panic SendOnClosedChannel else Return (ch ++ [ChanSend e]).

(** [close(ch)] *)
Definition chan_close (ch : chan) : go chan :=
  if chan_closed ch then Panic CloseOfClosedChannel else Return (ch ++ [ChanClose]).

(** The events sent on the channel, in order. *)
Fixpoint chan_events (ch : chan) : list subtaskapi.Event :=
  match ch with
  | [] => []
  | ChanSend e :: rest => e :: chan_events rest
  | ChanClose :: rest => chan_events rest
  end.

(** How many times the channel was closed. *)
Fixpoint chan_closes (ch : chan) : nat :=
  match ch with
  | [] => 0
  | ChanSend _ :: rest => chan_closes rest
  | ChanClose :: rest => S (chan_closes rest)
  end.

(** ** The client *)

Record localClient : Type := {
  conn : option grpc.ClientConn;
  client : option subtaskapi.E2SubscriptionTaskServiceClient
}.

(** [&localClient{}] *)
Definition zero_localClient : localClient := {| conn := None; client := None |}.

Record Destination : Type := { Addrs : list string }.

(** The collaborators of [NewClient]: the credential provider of package
    [e2], the dialer, and the generated stub constructor. *)
Record Env : Type := {
  e2_GetClientCredentials : option tls.Config * option error;
  grpc_DialContext :
    Context -> string -> list grpc.DialOption -> option grpc.ClientConn * option error;
  NewE2SubscriptionTaskServiceClient :
    option grpc.ClientConn -> subtaskapi.E2SubscriptionTaskServiceClient
}.

(** [NewClient] returns a [Client] interface value, here the pointer it
    holds ([None] would be a nil client), and an error. *)
Definition NewClient (env : Env) (ctx : Context) (dst : Destination)
  : traced (option localClient * option error) :=
  '(tlsConfig, err) <- extern Call_GetClientCredentials (e2_GetClientCredentials env) ;;
  match err with
  | Some e => ret (Some zero_localClient, Some e)
  | None =>
      let opts := [grpc.WithTransportCredentials (credentials.NewTLS tlsConfig)] in
      addr <- lift (slice_index (Addrs dst) 0) ;;
      '(conn, err) <- extern (Call_DialContext ctx addr opts) (grpc_DialContext env ctx addr opts) ;;
      match err with
      | Some e => ret (Some zero_localClient, Some e)
      | None =>
          let cl := NewE2SubscriptionTaskServiceClient env conn in
          ret (Some {| conn := conn; client := Some cl |}, None)
      end
  end.

Definition Get (c : localClient) (ctx : Context) (id : subtaskapi.ID)
  : traced (option subtaskapi.SubscriptionTask * option error) :=
  let req := {| subtaskapi.get_ID := id |} in
  stub <- lift (deref (client c)) ;;
  '(resp, err) <- extern (Call_GetSubscriptionTask ctx req)
                         (subtaskapi.GetSubscriptionTask stub ctx req) ;;
  match err with
  | Some e => ret (None, Some e)
  | None =>
      r <- lift (deref resp) ;;
      ret (subtaskapi.Task r, None)
  end.

(** A nil slice is the empty list. *)
Definition List (c : localClient) (ctx : Context) (opts : list FilterOption)
  : traced (list subtaskapi.SubscriptionTask * option error) :=
  let req := listRequest opts in
  stub <- lift (deref (client c)) ;;
  '(resp, err) <- extern (Call_ListSubscriptionTasks ctx req)
                         (subtaskapi.ListSubscriptionTasks stub ctx req) ;;
  match err with
  | Some e => ret ([], Some e)
  | None =>
      r <- lift (deref resp) ;;
      ret (subtaskapi.Tasks r, None)
  end.

(** ** Watch and its relaying goroutine *)

Definition error_eq_dec (a b : error) : {a = b} + {a <> b}.
Proof.
  decide equality; try apply string_dec.
  decide equality.
Defined.

(** [err == sentinel], for an [err] that may be nil. *)
Definition err_is (err : option error) (sentinel : error) : bool :=
  match err with
  | Some e => if error_eq_dec e sentinel then true else false
  | None => false
  end.

(** The condition under which the loop closes the channel and breaks. *)
Definition terminal (err : option error) : bool :=
  err_is err io_EOF || err_is err context_Canceled.

(** Where the goroutine stands once the stream has nothing more to give:
    still waiting in [Recv], returned after [break], or dead from a panic. *)
Inductive task_status : Type :=
| Receiving
| Exited
| Panicked (p : panic).

Record task : Type := {
  status : task_status;
  sink : chan;
  logged : list error
}.

(** The body of the goroutine, run against a stream [stream], the channel
    [ch] and the log so far. *)
Fixpoint relayLoop (stream : subtaskapi.WatchSubscriptionTasksClient)
    (ch : chan) (lg : list error) : task :=
  match stream with
  | [] => {| status := Receiving; sink := ch; logged := lg |}
  | (resp, err) :: rest =>
      if terminal err then
        match chan_close ch with
        | Return ch' => {| status := Exited; sink := ch'; logged := lg |}
        | Panic p => {| status := Panicked p; sink := ch; logged := lg |}
        end
      else
        let lg' := match err with
                   | Some e => lg ++ [e]
                   | None => lg
                   end in
        match deref resp with
        | Panic p => {| status := Panicked p; sink := ch; logged := lg' |}
        | Return r =>
            match chan_send ch (subtaskapi.Event_ r) with
            | Return ch' => relayLoop rest ch' lg'
            | Panic p => {| status := Panicked p; sink := ch; logged := lg' |}
            end
        end
  end.

(** The goroutine [Watch] starts: it captures the stream value returned by
    the stub (an interface, nil or not) and the caller's channel. *)
Definition relayTask (stream : option subtaskapi.WatchSubscriptionTasksClient)
    (ch : chan) : task :=
  match stream with
  | None => {| status := Panicked NilDereference; sink := ch; logged := [] |}
  | Some s => relayLoop s ch []
  end.

(** What is observable when [Watch] returns: the error it returns, the
    channel, and the goroutine it started, if any, given by the stream that
    goroutine reads. *)
Record watched : Type := {
  watch_err : option error;
  watch_ch : chan;
  watch_go : option (option subtaskapi.WatchSubscriptionTasksClient)
}.

Definition Watch (c : localClient) (ctx : Context) (ch : chan) (opts : list FilterOption)
  : traced watched :=
  let req := watchRequest opts in
  stub <- lift (deref (client c)) ;;
  '(stream, err) <- extern (Call_WatchSubscriptionTasks ctx req)
                           (subtaskapi.WatchSubscriptionTasks stub ctx req) ;;
  match err with
  | Some e =>
      ch' <- lift (chan_close ch) ;;
      ret {| watch_err := Some e; watch_ch := ch'; watch_go := None |}
  | None =>
      ret {| watch_err := None; watch_ch := ch; watch_go := Some stream |}
  end.

(** The goroutine of a returned [Watch], run to where its stream leaves it;
    [None] when no goroutine was started. *)
Definition watch_task (w : watched) : option task :=
  match watch_go w with
  | Some stream => Some (relayTask stream (watch_ch w))
  | None => None
  end.

(** [Close] releases the connection; the result of [conn.Close()] is taken
    from the environment. *)
Definition Close (c : localClient) (closeConn : grpc.ClientConn -> option error)
  : go (option error) :=
  match deref (conn c) with
  | Return cc => Return (closeConn cc)
  | Panic p => Panic p
  end.

(** ** Specification-side definitions *)

(** The filter criteria as the specification words them: for each field,
    the value of the last option that writes it, and the empty value when
    no option writes it. *)
Fixpoint lastSubscriptionID (opts : list FilterOption) : option subapi.ID :=
  match opts with
  | [] => None
  | opt :: rest =>
      match lastSubscriptionID rest with
      | Some id => Some id
      | None => match opt with
                | OfSubscription o => Some (subID o)
                | OfEndpoint _ => None
                end
      end
  end.

Fixpoint lastEndpointID (opts : list FilterOption) : option epapi.ID :=
  match opts with
  | [] => None
  | opt :: rest =>
      match lastEndpointID rest with
      | Some id => Some id
      | None => match opt with
                | OfEndpoint o => Some (epID o)
                | OfSubscription _ => None
                end
      end
  end.

Definition or_empty (id : option string) : string :=
  match id with
  | Some s => s
  | None => EmptyString
  end.

(** A stream message received without error. *)
Definition received (e : subtaskapi.Event) : subtaskapi.RecvResult :=
  (Some {| subtaskapi.Event_ := e |}, None).

(** Whether a receive result carries a response (a non-nil pointer). *)
Definition has_response (r : subtaskapi.RecvResult) : bool :=
  match fst r with
  | Some _ => true
  | None => false
  end.

(** The receive results the loop gets past: not terminal, with a response. *)
Definition relayed (r : subtaskapi.RecvResult) : bool :=
  negb (terminal (snd r)) && has_response r.

(** The event the loop sends for a receive result. *)
Definition event_of (r : subtaskapi.RecvResult) : list subtaskapi.Event :=
  match fst r with
  | Some resp => [subtaskapi.Event_ resp]
  | None => []
  end.

(** The non-terminal errors among receive results, which the loop logs. *)
Definition error_of (r : subtaskapi.RecvResult) : list error :=
  match snd r with
  | Some e => if terminal (Some e) then [] else [e]
  | None => []
  end.

(** The receive results before the first terminal one. *)
Fixpoint before_terminal (stream : list subtaskapi.RecvResult) : list subtaskapi.RecvResult :=
  match stream with
  | [] => []
  | r :: rest => if terminal (snd r) then [] else r :: before_terminal rest
  end.

(** Whether some receive result is terminal. *)
Definition ends (stream : list subtaskapi.RecvResult) : bool :=
  existsb (fun r => terminal (snd r)) stream.

(** A stream splits into the relayed results it starts with and the rest,
    which is empty or starts with a result the loop does not get past. *)
Fixpoint relayed_prefix (stream : subtaskapi.WatchSubscriptionTasksClient)
  : subtaskapi.WatchSubscriptionTasksClient :=
  match stream with
  | [] => []
  | r :: rest => if relayed r then r :: relayed_prefix rest else []
  end.

Fixpoint stop_point (stream : subtaskapi.WatchSubscriptionTasksClient)
  : subtaskapi.WatchSubscriptionTasksClient :=
  match stream with
  | [] => []
  | r :: rest => if relayed r then stop_point rest else r :: rest
  end.

(** Whether the loop goes no further than the start of [stream]: nothing
    is left to receive, or the first result is not relayed. *)
Definition stops_loop (stream : subtaskapi.WatchSubscriptionTasksClient) : bool :=
  match stream with
  | [] => true
  | r :: _ => negb (relayed r)
  end.

(** The addresses [grpc.DialContext] was called with, in order. *)
Fixpoint dialled (cs : list call) : list string :=
  match cs with
  | [] => []
  | Call_DialContext _ target _ :: rest => target :: dialled rest
  | _ :: rest => dialled rest
  end.

(** ** Sample collaborators *)

Definition task_a : subtaskapi.SubscriptionTask :=
  {| subtaskapi.task_ID := "task-a";
     subtaskapi.task_SubscriptionID := "sub-1";
     subtaskapi.task_EndpointID := "ep-1" |}.

Definition task_b : subtaskapi.SubscriptionTask :=
  {| subtaskapi.task_ID := "task-b";
     subtaskapi.task_SubscriptionID := "sub-2";
     subtaskapi.task_EndpointID := "ep-1" |}.

Definition created_a : subtaskapi.Event :=
  {| subtaskapi.event_Type := subtaskapi.EventCreated; subtaskapi.event_Task := task_a |}.

Definition removed_b : subtaskapi.Event :=
  {| subtaskapi.event_Type := subtaskapi.EventRemoved; subtaskapi.event_Task := task_b |}.

Definition not_found : error := status_Error codes.NotFound "no such task".
Definition unavailable : error := status_Error codes.Unavailable "connection refused".

(** A service holding [tasks], whose watch stream is [stream]. *)
Definition simulated (tasks : list subtaskapi.SubscriptionTask)
    (stream : subtaskapi.WatchSubscriptionTasksClient)
  : subtaskapi.E2SubscriptionTaskServiceClient :=
  {| subtaskapi.GetSubscriptionTask := fun _ req =>
       match find (fun t => String.eqb (subtaskapi.task_ID t) (subtaskapi.get_ID req)) tasks with
       | Some t => (Some {| subtaskapi.Task := Some t |}, None)
       | None => (None, Some not_found)
       end;
     subtaskapi.ListSubscriptionTasks := fun _ _ =>
       (Some {| subtaskapi.Tasks := tasks |}, None);
     subtaskapi.WatchSubscriptionTasks := fun _ _ => (Some stream, None) |}.

(** A stub whose channel is down: every call fails. *)
Definition broken : subtaskapi.E2SubscriptionTaskServiceClient :=
  {| subtaskapi.GetSubscriptionTask := fun _ _ => (None, Some unavailable);
     subtaskapi.ListSubscriptionTasks := fun _ _ => (None, Some unavailable);
     subtaskapi.WatchSubscriptionTasks := fun _ _ => (None, Some unavailable) |}.

Definition client_of (stub : subtaskapi.E2SubscriptionTaskServiceClient) : localClient :=
  {| conn := Some {| grpc.Target := "onos-e2sub:5150" |}; client := Some stub |}.

Definition env_ok : Env :=
  {| e2_GetClientCredentials := (Some {| tls.ServerName := "onos" |}, None);
     grpc_DialContext := fun _ target _ => (Some {| grpc.Target := target |}, None);
     NewE2SubscriptionTaskServiceClient := fun _ => simulated [task_a; task_b] [] |}.

Definition env_no_credentials : Env :=
  {| e2_GetClientCredentials := (None, Some (errors_New "no certificate"));
     grpc_DialContext := grpc_DialContext env_ok;
     NewE2SubscriptionTaskServiceClient := NewE2SubscriptionTaskServiceClient env_ok |}.

Definition env_unreachable : Env :=
  {| e2_GetClientCredentials := e2_GetClientCredentials env_ok;
     grpc_DialContext := fun _ _ _ => (None, Some unavailable);
     NewE2SubscriptionTaskServiceClient := NewE2SubscriptionTaskServiceClient env_ok |}.

(** A stream that delivers two events and then ends cleanly. *)
Definition stream_clean : subtaskapi.WatchSubscriptionTasksClient :=
  [received created_a; received removed_b; (None, Some io_EOF)].

(** A stream whose context is cancelled after one event. *)
Definition stream_cancelled : subtaskapi.WatchSubscriptionTasksClient :=
  [received created_a; (None, Some context_Canceled); received removed_b].

(** A stream that delivers one event and then fails with a transport
    error; as with the generated stub, the failed receive has no response. *)
Definition stream_unavailable : subtaskapi.WatchSubscriptionTasksClient :=
  [received created_a; (None, Some unavailable)].

(** A stream whose failed receive does carry a response. *)
Definition stream_error_with_response : subtaskapi.WatchSubscriptionTasksClient :=
  [(Some {| subtaskapi.Event_ := removed_b |}, Some unavailable)].

(** The channel once a returned [Watch] has run its course: as the goroutine
    leaves it when one was started, as [Watch] left it otherwise. *)
Definition watch_final (w : watched) : chan :=
  match watch_task w with
  | Some t => sink t
  | None => watch_ch w
  end.

(** A channel the caller has already closed after one event. *)
Definition closed_chan : chan := [ChanSend created_a; ChanClose].

(** A stream with a failed receive that carries a response, between two
    successful ones, ending cleanly. *)
Definition stream_mixed : subtaskapi.WatchSubscriptionTasksClient :=
  [received created_a;
   (Some {| subtaskapi.Event_ := removed_b |}, Some unavailable);
   received created_a;
   (None, Some io_EOF);
   received removed_b].

(** A stub whose get answers carry a response without a task. *)
Definition taskless : subtaskapi.E2SubscriptionTaskServiceClient :=
  {| subtaskapi.GetSubscriptionTask := fun _ _ => (Some {| subtaskapi.Task := None |}, None);
     subtaskapi.ListSubscriptionTasks := fun _ _ => (Some {| subtaskapi.Tasks := [] |}, None);
     subtaskapi.WatchSubscriptionTasks := fun _ _ => (Some [], None) |}.

(** * Properties *)

(** ** Filter options *)

Lemma rangeApplyList_fold (opts : list FilterOption) (options : listOptions) :
  rangeApplyList opts options = fold_left (fun acc opt => applyList opt acc) opts options.
Proof.
  revert options; induction opts as [|opt rest IH]; intros options; simpl; auto.
Qed.

Lemma rangeApplyWatch_fold (opts : list FilterOption) (options : watchOptions) :
  rangeApplyWatch opts options = fold_left (fun acc opt => applyWatch opt acc) opts options.
Proof.
  revert options; induction opts as [|opt rest IH]; intros options; simpl; auto.
Qed.

Lemma rangeApplyList_last (opts : list FilterOption) (options : listOptions) :
  lo_subscriptionID (rangeApplyList opts options)
    = match lastSubscriptionID opts with Some id => id | None => lo_subscriptionID options end
  /\ lo_endpointID (rangeApplyList opts options)
    = match lastEndpointID opts with Some id => id | None => lo_endpointID options end.
Proof.
  revert options; induction opts as [|opt rest IH]; intros options; simpl.
  - split; reflexivity.
  - destruct (IH (applyList opt options)) as [Hs He].
    rewrite Hs, He.
    destruct opt as [o|o]; cbn;
      destruct (lastSubscriptionID rest), (lastEndpointID rest); split; reflexivity.
Qed.

Lemma rangeApplyWatch_last (opts : list FilterOption) (options : watchOptions) :
  wo_subscriptionID (rangeApplyWatch opts options)
    = match lastSubscriptionID opts with Some id => id | None => wo_subscriptionID options end
  /\ wo_endpointID (rangeApplyWatch opts options)
    = match lastEndpointID opts with Some id => id | None => wo_endpointID options end.
Proof.
  revert options; induction opts as [|opt rest IH]; intros options; simpl.
  - split; reflexivity.
  - destruct (IH (applyWatch opt options)) as [Hs He].
    rewrite Hs, He.
    destruct opt as [o|o]; cbn;
      destruct (lastSubscriptionID rest), (lastEndpointID rest); split; reflexivity.
Qed.

Lemma lastSubscriptionID_snoc (opts : list FilterOption) (id : subapi.ID) :
  lastSubscriptionID (opts ++ [WithSubscriptionID id]) = Some id.
Proof.
  induction opts as [|opt rest IH]; simpl; [reflexivity | now rewrite IH].
Qed.

Lemma lastEndpointID_snoc (opts : list FilterOption) (id : epapi.ID) :
  lastEndpointID (opts ++ [WithEndpointID id]) = Some id.
Proof.
  induction opts as [|opt rest IH]; simpl; [reflexivity | now rewrite IH].
Qed.

(** A later option for a field overrides every earlier one for it. *)
Corollary request_last_option_wins (opts : list FilterOption) (sub : subapi.ID)
    (ep : epapi.ID) :
  subtaskapi.list_SubscriptionID (listRequest (opts ++ [WithSubscriptionID sub])) = sub
  /\ subtaskapi.watch_SubscriptionID (watchRequest (opts ++ [WithSubscriptionID sub])) = sub
  /\ subtaskapi.list_EndpointID (listRequest (opts ++ [WithEndpointID ep])) = ep
  /\ subtaskapi.watch_EndpointID (watchRequest (opts ++ [WithEndpointID ep])) = ep.
Proof.
  unfold listRequest, watchRequest; cbn.
  destruct (rangeApplyList_last (opts ++ [WithSubscriptionID sub]) zero_listOptions)
    as [H1 _].
  destruct (rangeApplyWatch_last (opts ++ [WithSubscriptionID sub]) zero_watchOptions)
    as [H2 _].
  destruct (rangeApplyList_last (opts ++ [WithEndpointID ep]) zero_listOptions)
    as [_ H3].
  destruct (rangeApplyWatch_last (opts ++ [WithEndpointID ep]) zero_watchOptions)
    as [_ H4].
  rewrite H1, H2, H3, H4, !lastSubscriptionID_snoc, !lastEndpointID_snoc.
  repeat split.
Qed.

Lemma List_calls (cn : option grpc.ClientConn)
    (stub : subtaskapi.E2SubscriptionTaskServiceClient)
    (ctx : Context) (opts : list FilterOption) :
  calls (List {| conn := cn; client := Some stub |} ctx opts)
    = [Call_ListSubscriptionTasks ctx (listRequest opts)].
Proof.
  unfold List, bind; cbn.
  destruct (subtaskapi.ListSubscriptionTasks stub ctx (listRequest opts)) as [resp err].
  destruct err; [reflexivity | destruct resp; reflexivity].
Qed.

Lemma Watch_calls (cn : option grpc.ClientConn)
    (stub : subtaskapi.E2SubscriptionTaskServiceClient)
    (ctx : Context) (ch : chan) (opts : list FilterOption) :
  calls (Watch {| conn := cn; client := Some stub |} ctx ch opts)
    = [Call_WatchSubscriptionTasks ctx (watchRequest opts)].
Proof.
  unfold Watch, bind; cbn.
  destruct (subtaskapi.WatchSubscriptionTasks stub ctx (watchRequest opts)) as [stream err].
  destruct err; [destruct (chan_close ch) |]; reflexivity.
Qed.

(** C2. The filter fields of the request sent by [List], and by [Watch],
    are those of the left-to-right fold of the options over the zero-valued
    accumulator; each field holds the value of the last option writing it,
    or the empty value when none does; with no options both are empty. *)
Theorem request_filter_is_option_fold
    (cn : option grpc.ClientConn) (stub : subtaskapi.E2SubscriptionTaskServiceClient)
    (ctx : Context) (ch : chan) (opts : list FilterOption) :
  let c := {| conn := cn; client := Some stub |} in
  let lfold := fold_left (fun acc opt => applyList opt acc) opts zero_listOptions in
  let wfold := fold_left (fun acc opt => applyWatch opt acc) opts zero_watchOptions in
  calls (List c ctx opts)
    = [Call_ListSubscriptionTasks ctx
         {| subtaskapi.list_SubscriptionID := lo_subscriptionID lfold;
            subtaskapi.list_EndpointID := lo_endpointID lfold |}]
  /\ calls (Watch c ctx ch opts)
    = [Call_WatchSubscriptionTasks ctx
         {| subtaskapi.watch_SubscriptionID := wo_subscriptionID wfold;
            subtaskapi.watch_EndpointID := wo_endpointID wfold |}]
  /\ lo_subscriptionID lfold = or_empty (lastSubscriptionID opts)
  /\ lo_endpointID lfold = or_empty (lastEndpointID opts)
  /\ wo_subscriptionID wfold = or_empty (lastSubscriptionID opts)
  /\ wo_endpointID wfold = or_empty (lastEndpointID opts)
  /\ listRequest [] = {| subtaskapi.list_SubscriptionID := EmptyString;
                         subtaskapi.list_EndpointID := EmptyString |}
  /\ watchRequest [] = {| subtaskapi.watch_SubscriptionID := EmptyString;
                          subtaskapi.watch_EndpointID := EmptyString |}.
Proof.
  intros c lfold wfold. subst lfold wfold.
  rewrite <- rangeApplyList_fold, <- rangeApplyWatch_fold.
  destruct (rangeApplyList_last opts zero_listOptions) as [Hls Hle].
  destruct (rangeApplyWatch_last opts zero_watchOptions) as [Hws Hwe].
  repeat apply conj; try reflexivity.
  - subst c; rewrite List_calls; reflexivity.
  - subst c; rewrite Watch_calls; reflexivity.
  - rewrite Hls. destruct (lastSubscriptionID opts); reflexivity.
  - rewrite Hle. destruct (lastEndpointID opts); reflexivity.
  - rewrite Hws. destruct (lastSubscriptionID opts); reflexivity.
  - rewrite Hwe. destruct (lastEndpointID opts); reflexivity.
Qed.

(** ** Construction *)

(** [NewClient] when the credential provider fails. *)
Lemma NewClient_no_credentials (env : Env) (ctx : Context) (dst : Destination)
    (cfg : option tls.Config) (e : error) :
  e2_GetClientCredentials env = (cfg, Some e) ->
  NewClient env ctx dst
    = {| calls := [Call_GetClientCredentials];
         outcome := Return (Some zero_localClient, Some e) |}.
Proof.
  intros H. unfold NewClient, bind, extern, ret. rewrite H. reflexivity.
Qed.

(** [NewClient] with credentials and an empty address list. *)
Lemma NewClient_no_address (env : Env) (ctx : Context) (dst : Destination)
    (cfg : option tls.Config) :
  e2_GetClientCredentials env = (cfg, None) ->
  Addrs dst = [] ->
  NewClient env ctx dst
    = {| calls := [Call_GetClientCredentials];
         outcome := Panic (IndexOutOfRange 0 0) |}.
Proof.
  intros H Ha. unfold NewClient, bind, extern, lift, slice_index.
  rewrite H; cbn. rewrite Ha. reflexivity.
Qed.

(** [NewClient] with credentials and a first address: it dials that
    address and its result follows the dialer's answer. *)
Lemma NewClient_dials_first (env : Env) (ctx : Context) (dst : Destination)
    (cfg : option tls.Config) (addr : string) (more : list string) :
  e2_GetClientCredentials env = (cfg, None) ->
  Addrs dst = addr :: more ->
  let opts := [grpc.WithTransportCredentials (credentials.NewTLS cfg)] in
  calls (NewClient env ctx dst)
    = [Call_GetClientCredentials; Call_DialContext ctx addr opts]
  /\ outcome (NewClient env ctx dst)
    = match grpc_DialContext env ctx addr opts with
      | (_, Some e) => Return (Some zero_localClient, Some e)
      | (cc, None) =>
          Return (Some {| conn := cc;
                          client := Some (NewE2SubscriptionTaskServiceClient env cc) |},
                  None)
      end.
Proof.
  intros H Ha opts. subst opts.
  unfold NewClient, bind, extern, lift, ret, slice_index.
  rewrite H; cbn. rewrite Ha; cbn.
  destruct (grpc_DialContext env ctx addr
              [grpc.WithTransportCredentials (credentials.NewTLS cfg)]) as [cc [e|]];
    split; reflexivity.
Qed.

(** C7. With more than one address in the destination, [NewClient] dials at
    most once, and only the first address of the list: exactly that one
    when credentials were obtained, and none otherwise. *)
Theorem NewClient_dials_only_first_address
    (env : Env) (ctx : Context) (dst : Destination) :
  1 < List.length (Addrs dst) ->
  exists first rest,
    Addrs dst = first :: rest /\
    dialled (calls (NewClient env ctx dst))
      = match snd (e2_GetClientCredentials env) with
        | None => [first]
        | Some _ => []
        end.
Proof.
  intros Hlen.
  destruct (Addrs dst) as [|first rest] eqn:Ha; [simpl in Hlen; lia|].
  exists first, rest. split; [reflexivity|].
  destruct (e2_GetClientCredentials env) as [cfg [e|]] eqn:Hc; cbn [snd].
  - rewrite (NewClient_no_credentials env ctx dst cfg e Hc). reflexivity.
  - destruct (NewClient_dials_first env ctx dst cfg first rest Hc Ha) as [Hcalls _].
    rewrite Hcalls. reflexivity.
Qed.

Lemma NewClient_dials_only_first_address_witness :
  1 < List.length (Addrs {| Addrs := ["e2sub-0:5150"; "e2sub-1:5150"; "e2sub-2:5150"] |})
  /\ exists first rest,
       Addrs {| Addrs := ["e2sub-0:5150"; "e2sub-1:5150"; "e2sub-2:5150"] |} = first :: rest /\
       dialled (calls (NewClient env_ok context_Background
                         {| Addrs := ["e2sub-0:5150"; "e2sub-1:5150"; "e2sub-2:5150"] |}))
         = match snd (e2_GetClientCredentials env_ok) with
           | None => [first]
           | Some _ => []
           end.
Proof.
  split.
  - simpl; lia.
  - apply (NewClient_dials_only_first_address env_ok context_Background
             {| Addrs := ["e2sub-0:5150"; "e2sub-1:5150"; "e2sub-2:5150"] |}).
    simpl; lia.
Defined.

(** C9, as the code has it. Once credentials are obtained, [NewClient]
    evaluates [dst.Addrs[0]] with no length check and before any dial: it
    panics with an index-out-of-range error, having dialled nothing, exactly
    when the address list is empty, and it does not panic otherwise. When
    the credential provider fails, the index expression is not reached and
    [NewClient] returns that error, whatever the address list. *)
Theorem NewClient_index_panics_iff_no_address
    (env : Env) (ctx : Context) (dst : Destination) :
  (snd (e2_GetClientCredentials env) = None ->
   ((exists p, outcome (NewClient env ctx dst) = Panic p) <-> Addrs dst = [])
   /\ (Addrs dst = [] ->
       outcome (NewClient env ctx dst) = Panic (IndexOutOfRange 0 0)
       /\ dialled (calls (NewClient env ctx dst)) = []))
  /\ (forall e, snd (e2_GetClientCredentials env) = Some e ->
        NewClient env ctx dst
          = {| calls := [Call_GetClientCredentials];
               outcome := Return (Some zero_localClient, Some e) |}).
Proof.
  destruct (e2_GetClientCredentials env) as [cfg err] eqn:He; cbn [snd].
  split.
  - intros Hc; subst err. split; [split|].
    + intros [p Hp].
      destruct (Addrs dst) as [|addr more] eqn:Ha; [reflexivity|exfalso].
      destruct (NewClient_dials_first env ctx dst cfg addr more He Ha) as [_ Hout].
      rewrite Hout in Hp.
      destruct (grpc_DialContext env ctx addr
                  [grpc.WithTransportCredentials (credentials.NewTLS cfg)]) as [cc [e|]];
        discriminate.
    + intros Ha. rewrite (NewClient_no_address env ctx dst cfg He Ha). eexists; reflexivity.
    + intros Ha. rewrite (NewClient_no_address env ctx dst cfg He Ha). split; reflexivity.
  - intros e Hc; subst err. exact (NewClient_no_credentials env ctx dst cfg e He).
Qed.

Lemma NewClient_index_panics_iff_no_address_witness :
  snd (e2_GetClientCredentials env_ok) = None
  /\ outcome (NewClient env_ok context_Background {| Addrs := [] |})
       = Panic (IndexOutOfRange 0 0)
  /\ snd (e2_GetClientCredentials env_no_credentials) = Some (errors_New "no certificate")
  /\ outcome (NewClient env_no_credentials context_Background {| Addrs := [] |})
       = Return (Some zero_localClient, Some (errors_New "no certificate")).
Proof.
  split; [reflexivity|]. split.
  - apply (NewClient_index_panics_iff_no_address env_ok context_Background {| Addrs := [] |});
      reflexivity.
  - split; [reflexivity|].
    rewrite (proj2 (NewClient_index_panics_iff_no_address
                      env_no_credentials context_Background {| Addrs := [] |})
               (errors_New "no certificate") eq_refl).
    reflexivity.
Defined.

(** C9 as stated fails: with an empty address list and a failing credential
    provider, [NewClient] never reaches the index expression and returns
    the credential error instead of panicking. *)
Lemma NewClient_empty_addrs_returns_error :
  Addrs {| Addrs := [] |} = []
  /\ NewClient env_no_credentials context_Background {| Addrs := [] |}
     = {| calls := [Call_GetClientCredentials];
          outcome := Return (Some zero_localClient, Some (errors_New "no certificate")) |}
  /\ ~ (exists p, outcome (NewClient env_no_credentials context_Background {| Addrs := [] |})
                  = Panic p).
Proof.
  split; [reflexivity|]. split; [reflexivity|].
  intros [p Hp]. discriminate Hp.
Qed.

(** C10. Whenever [NewClient] returns an error, the client returned with
    it is a non-nil pointer to a zero-valued [localClient]; this is so for a
    credential failure and for a dial failure. The credential provider is
    the first collaborator called, and any dial happens only after it
    succeeded. *)
Theorem NewClient_failure_returns_zero_client
    (env : Env) (ctx : Context) (dst : Destination) :
  (forall cl e, outcome (NewClient env ctx dst) = Return (cl, Some e) ->
                cl = Some zero_localClient)
  /\ (forall e, snd (e2_GetClientCredentials env) = Some e ->
                outcome (NewClient env ctx dst) = Return (Some zero_localClient, Some e))
  /\ (forall addr more e,
        snd (e2_GetClientCredentials env) = None ->
        Addrs dst = addr :: more ->
        snd (grpc_DialContext env ctx addr
               [grpc.WithTransportCredentials
                  (credentials.NewTLS (fst (e2_GetClientCredentials env)))]) = Some e ->
        outcome (NewClient env ctx dst) = Return (Some zero_localClient, Some e))
  /\ hd_error (calls (NewClient env ctx dst)) = Some Call_GetClientCredentials
  /\ (dialled (calls (NewClient env ctx dst)) <> [] ->
      snd (e2_GetClientCredentials env) = None).
Proof.
  destruct (e2_GetClientCredentials env) as [cfg [ce|]] eqn:Hc.
  - rewrite (NewClient_no_credentials env ctx dst cfg ce Hc); cbn.
    repeat apply conj; try reflexivity.
    + intros cl e H; inversion H; reflexivity.
    + intros e H; inversion H; reflexivity.
    + intros addr more e H; discriminate.
    + intros H; contradiction H; reflexivity.
  - destruct (Addrs dst) as [|addr more] eqn:Ha.
    + rewrite (NewClient_no_address env ctx dst cfg Hc Ha); cbn.
      repeat apply conj; try reflexivity; try discriminate.
    + destruct (NewClient_dials_first env ctx dst cfg addr more Hc Ha) as [Hcalls Hout].
      rewrite Hcalls, Hout; cbn.
      repeat apply conj; try reflexivity; try discriminate.
      * intros cl e.
        destruct (grpc_DialContext env ctx addr
                    [grpc.WithTransportCredentials (credentials.NewTLS cfg)]) as [cc [de|]];
          intros H; inversion H; reflexivity.
      * intros addr' more' e _ Heq. inversion Heq; subst addr' more'.
        destruct (grpc_DialContext env ctx addr
                    [grpc.WithTransportCredentials (credentials.NewTLS cfg)]) as [cc [de|]];
          cbn; intros H; inversion H; reflexivity.
Qed.

Lemma NewClient_failure_returns_zero_client_witness :
  outcome (NewClient env_no_credentials context_Background {| Addrs := ["e2sub-0:5150"] |})
    = Return (Some zero_localClient, Some (errors_New "no certificate"))
  /\ outcome (NewClient env_unreachable context_Background {| Addrs := ["e2sub-0:5150"] |})
    = Return (Some zero_localClient, Some unavailable).
Proof.
  split.
  - apply (NewClient_failure_returns_zero_client env_no_credentials context_Background
             {| Addrs := ["e2sub-0:5150"] |}).
    reflexivity.
  - apply (NewClient_failure_returns_zero_client env_unreachable context_Background
             {| Addrs := ["e2sub-0:5150"] |}) with (addr := "e2sub-0:5150") (more := []);
      reflexivity.
Defined.

(** ** Get *)

Lemma Get_calls (cn : option grpc.ClientConn)
    (stub : subtaskapi.E2SubscriptionTaskServiceClient)
    (ctx : Context) (id : subtaskapi.ID) :
  calls (Get {| conn := cn; client := Some stub |} ctx id)
    = [Call_GetSubscriptionTask ctx {| subtaskapi.get_ID := id |}].
Proof.
  unfold Get, bind; cbn.
  destruct (subtaskapi.GetSubscriptionTask stub ctx {| subtaskapi.get_ID := id |})
    as [resp err].
  destruct err; [reflexivity | destruct resp; reflexivity].
Qed.

Lemma Get_outcome (cn : option grpc.ClientConn)
    (stub : subtaskapi.E2SubscriptionTaskServiceClient)
    (ctx : Context) (id : subtaskapi.ID) :
  outcome (Get {| conn := cn; client := Some stub |} ctx id)
    = let answer := subtaskapi.GetSubscriptionTask stub ctx {| subtaskapi.get_ID := id |} in
      match snd answer, fst answer with
      | Some e, _ => Return (None, Some e)
      | None, Some r => Return (subtaskapi.Task r, None)
      | None, None => Panic NilDereference
      end.
Proof.
  unfold Get, bind; cbn.
  destruct (subtaskapi.GetSubscriptionTask stub ctx {| subtaskapi.get_ID := id |})
    as [resp err].
  destruct err; [reflexivity | destruct resp; reflexivity].
Qed.

(** C6. [Get] makes one call, a get request carrying exactly the given
    identifier, whatever the identifier is. When the stub answers with a
    response and no error, [Get] returns the task of that response; when it
    answers with an error, [Get] returns no task and that same error, so that
    two different errors of the service (a not-found status, an unavailable
    channel) give two different results. *)
Theorem Get_forwards_id_and_propagates
    (cn : option grpc.ClientConn) (stub : subtaskapi.E2SubscriptionTaskServiceClient)
    (ctx : Context) (id : subtaskapi.ID) :
  let c := {| conn := cn; client := Some stub |} in
  let req := {| subtaskapi.get_ID := id |} in
  calls (Get c ctx id) = [Call_GetSubscriptionTask ctx req]
  /\ (forall r, subtaskapi.GetSubscriptionTask stub ctx req = (Some r, None) ->
                outcome (Get c ctx id) = Return (subtaskapi.Task r, None))
  /\ (forall resp e, subtaskapi.GetSubscriptionTask stub ctx req = (resp, Some e) ->
                     outcome (Get c ctx id) = Return (None, Some e))
  /\ (forall cn' stub' resp resp' e e',
        subtaskapi.GetSubscriptionTask stub ctx req = (resp, Some e) ->
        subtaskapi.GetSubscriptionTask stub' ctx req = (resp', Some e') ->
        e <> e' ->
        outcome (Get c ctx id)
          <> outcome (Get {| conn := cn'; client := Some stub' |} ctx id)).
Proof.
  intros c req. subst c req.
  repeat apply conj.
  - apply Get_calls.
  - intros r H. rewrite Get_outcome, H. reflexivity.
  - intros resp e H. rewrite Get_outcome, H. reflexivity.
  - intros cn' stub' resp resp' e e' H H' Hne.
    rewrite !Get_outcome, H, H'. cbn. intros Heq. apply Hne. congruence.
Qed.

Lemma Get_forwards_id_and_propagates_witness :
  outcome (Get (client_of (simulated [task_a; task_b] [])) context_Background "task-b")
    = Return (Some task_b, None)
  /\ outcome (Get (client_of (simulated [task_a; task_b] [])) context_Background "task-z")
    = Return (None, Some not_found)
  /\ outcome (Get (client_of (simulated [task_a; task_b] [])) context_Background "task-z")
    <> outcome (Get (client_of broken) context_Background "task-z").
Proof.
  repeat apply conj.
  - apply (Get_forwards_id_and_propagates
             (Some {| grpc.Target := "onos-e2sub:5150" |})
             (simulated [task_a; task_b] []) context_Background "task-b")
      with (r := {| subtaskapi.Task := Some task_b |}).
    reflexivity.
  - apply (Get_forwards_id_and_propagates
             (Some {| grpc.Target := "onos-e2sub:5150" |})
             (simulated [task_a; task_b] []) context_Background "task-z")
      with (resp := None).
    reflexivity.
  - apply (Get_forwards_id_and_propagates
             (Some {| grpc.Target := "onos-e2sub:5150" |})
             (simulated [task_a; task_b] []) context_Background "task-z")
      with (resp := None) (resp' := None) (e := not_found) (e' := unavailable).
    + reflexivity.
    + reflexivity.
    + unfold not_found, unavailable. discriminate.
Defined.

(** ** Watch: the synchronous part *)

Lemma chan_close_open (ch : chan) :
  chan_closed ch = false -> chan_close ch = Return (ch ++ [ChanClose]).
Proof. intros H. unfold chan_close. rewrite H. reflexivity. Qed.

Lemma chan_send_open (ch : chan) (e : subtaskapi.Event) :
  chan_closed ch = false -> chan_send ch e = Return (ch ++ [ChanSend e]).
Proof. intros H. unfold chan_send. rewrite H. reflexivity. Qed.

(** C5. On an open channel, [Watch] returns an error exactly when the
    stream-open call returns one. In that case the error is the one of the
    call, the channel has been closed when [Watch] returns, and no goroutine
    was started. Otherwise [Watch] returns nil, leaves the channel as it is,
    and has started the goroutine over the stream it was given. *)
Theorem Watch_fails_iff_open_fails
    (cn : option grpc.ClientConn) (stub : subtaskapi.E2SubscriptionTaskServiceClient)
    (ctx : Context) (ch : chan) (opts : list FilterOption) :
  chan_closed ch = false ->
  let c := {| conn := cn; client := Some stub |} in
  let opened := subtaskapi.WatchSubscriptionTasks stub ctx (watchRequest opts) in
  exists w,
    outcome (Watch c ctx ch opts) = Return w
    /\ (watch_err w <> None <-> snd opened <> None)
    /\ (forall e, snd opened = Some e ->
          w = {| watch_err := Some e; watch_ch := ch ++ [ChanClose]; watch_go := None |})
    /\ (snd opened = None ->
          w = {| watch_err := None; watch_ch := ch; watch_go := Some (fst opened) |}).
Proof.
  intros Hopen c opened. subst c opened.
  unfold Watch, bind; cbn.
  destruct (subtaskapi.WatchSubscriptionTasks stub ctx (watchRequest opts)) as [stream [e|]];
    cbn.
  - rewrite (chan_close_open ch Hopen); cbn.
    eexists; split; [reflexivity|]. cbn.
    repeat apply conj.
    + intros _; discriminate.
    + intros _; discriminate.
    + intros e' H; inversion H; reflexivity.
    + discriminate.
  - eexists; split; [reflexivity|]. cbn.
    repeat apply conj.
    + intros H; exact H.
    + intros H; exact H.
    + discriminate.
    + reflexivity.
Qed.

Lemma Watch_fails_iff_open_fails_witness :
  chan_closed [] = false
  /\ (exists w,
        outcome (Watch (client_of broken) context_Background [] [WithEndpointID "ep-1"])
          = Return w
        /\ w = {| watch_err := Some unavailable; watch_ch := [ChanClose]; watch_go := None |})
  /\ (exists w,
        outcome (Watch (client_of (simulated [task_a] [received created_a]))
                   context_Background [] [])
          = Return w
        /\ w = {| watch_err := None; watch_ch := [];
                  watch_go := Some (Some [received created_a]) |}).
Proof.
  split; [reflexivity|]. split.
  - destruct (Watch_fails_iff_open_fails
                (Some {| grpc.Target := "onos-e2sub:5150" |}) broken
                context_Background [] [WithEndpointID "ep-1"] eq_refl)
      as [w [Hw [_ [Hfail _]]]].
    exists w. split; [exact Hw|]. apply Hfail. reflexivity.
  - destruct (Watch_fails_iff_open_fails
                (Some {| grpc.Target := "onos-e2sub:5150" |})
                (simulated [task_a] [received created_a])
                context_Background [] [] eq_refl)
      as [w [Hw [_ [_ Hok]]]].
    exists w. split; [exact Hw|]. apply Hok. reflexivity.
Defined.

(** ** Watch: the relaying goroutine *)

Lemma chan_closed_app (ch ch' : chan) :
  chan_closed (ch ++ ch') = chan_closed ch || chan_closed ch'.
Proof. unfold chan_closed. apply existsb_app. Qed.

Lemma chan_closed_sends (es : list subtaskapi.Event) :
  chan_closed (map ChanSend es) = false.
Proof. induction es as [|e es IH]; simpl; auto. Qed.

Lemma chan_events_app (ch ch' : chan) :
  chan_events (ch ++ ch') = chan_events ch ++ chan_events ch'.
Proof.
  induction ch as [|[e|] ch IH]; simpl; auto. now rewrite IH.
Qed.

Lemma chan_events_sends (es : list subtaskapi.Event) :
  chan_events (map ChanSend es) = es.
Proof. induction es as [|e es IH]; simpl; auto. now rewrite IH. Qed.

Lemma chan_closes_app (ch ch' : chan) :
  chan_closes (ch ++ ch') = chan_closes ch + chan_closes ch'.
Proof.
  induction ch as [|[e|] ch IH]; simpl; auto.
Qed.

Lemma chan_closes_sends (es : list subtaskapi.Event) :
  chan_closes (map ChanSend es) = 0.
Proof. induction es as [|e es IH]; simpl; auto. Qed.

Lemma chan_closes_open (ch : chan) :
  chan_closed ch = false -> chan_closes ch = 0.
Proof.
  induction ch as [|[e|] ch IH]; simpl; auto. discriminate.
Qed.

(** What the loop logs for a non-terminal receive result. *)
Lemma logged_error_of (resp : option subtaskapi.WatchSubscriptionTasksResponse)
    (err : option error) (lg : list error) :
  terminal err = false ->
  match err with Some e => lg ++ [e] | None => lg end = lg ++ error_of (resp, err).
Proof.
  intros Ht. unfold error_of; cbn [snd].
  destruct err as [e|]; [rewrite Ht; reflexivity | now rewrite app_nil_r].
Qed.

(** One iteration on a receive result that is not terminal. *)
Lemma relayLoop_step (resp : option subtaskapi.WatchSubscriptionTasksResponse)
    (err : option error) (rest : subtaskapi.WatchSubscriptionTasksClient)
    (ch : chan) (lg : list error) :
  terminal err = false ->
  chan_closed ch = false ->
  relayLoop ((resp, err) :: rest) ch lg
    = match resp with
      | Some r => relayLoop rest (ch ++ [ChanSend (subtaskapi.Event_ r)])
                            (lg ++ error_of (resp, err))
      | None => {| status := Panicked NilDereference; sink := ch;
                   logged := lg ++ error_of (resp, err) |}
      end.
Proof.
  intros Ht Hopen. cbn [relayLoop]. rewrite Ht.
  rewrite (logged_error_of resp err lg Ht).
  destruct resp as [r|]; cbn [deref]; [|reflexivity].
  rewrite (chan_send_open ch (subtaskapi.Event_ r) Hopen). reflexivity.
Qed.

(** One iteration on a terminal receive result. *)
Lemma relayLoop_terminal (resp : option subtaskapi.WatchSubscriptionTasksResponse)
    (err : option error) (rest : subtaskapi.WatchSubscriptionTasksClient)
    (ch : chan) (lg : list error) :
  terminal err = true ->
  chan_closed ch = false ->
  relayLoop ((resp, err) :: rest) ch lg
    = {| status := Exited; sink := ch ++ [ChanClose]; logged := lg |}.
Proof.
  intros Ht Hopen. cbn [relayLoop]. rewrite Ht, (chan_close_open ch Hopen). reflexivity.
Qed.

(** The loop runs through a prefix of relayed receive results, sending one
    event for each, in order, and logging the errors among them. *)
Lemma relayLoop_relayed_prefix (pre rest : subtaskapi.WatchSubscriptionTasksClient) :
  forall (ch : chan) (lg : list error),
    forallb relayed pre = true ->
    chan_closed ch = false ->
    relayLoop (pre ++ rest) ch lg
      = relayLoop rest (ch ++ map ChanSend (flat_map event_of pre))
                       (lg ++ flat_map error_of pre).
Proof.
  induction pre as [|[resp err] pre IH]; intros ch lg Hpre Hopen.
  - cbn. now rewrite !app_nil_r.
  - cbn [forallb] in Hpre. apply andb_true_iff in Hpre as [Hr Hpre].
    unfold relayed, has_response in Hr; cbn [fst snd] in Hr.
    apply andb_true_iff in Hr as [Ht Hresp].
    apply negb_true_iff in Ht.
    destruct resp as [r|]; [|discriminate].
    rewrite <- app_comm_cons.
    etransitivity;
      [exact (relayLoop_step (Some r) err (pre ++ rest) ch lg Ht Hopen)|].
    cbv beta iota. rewrite IH; auto.
    + cbn [flat_map event_of fst app map].
      now rewrite <- !app_assoc.
    + rewrite chan_closed_app, Hopen. reflexivity.
Qed.

Lemma relayed_prefix_split (stream : subtaskapi.WatchSubscriptionTasksClient) :
  stream = relayed_prefix stream ++ stop_point stream
  /\ forallb relayed (relayed_prefix stream) = true
  /\ match stop_point stream with
     | [] => True
     | r :: _ => relayed r = false
     end.
Proof.
  induction stream as [|r rest (Hs & Hp & Hr)]; cbn.
  - auto.
  - destruct (relayed r) eqn:E; cbn.
    + rewrite E, Hp. repeat split; auto. now rewrite <- Hs.
    + auto.
Qed.

(** Where the loop ends up on a stream whose first result is not relayed. *)
Lemma relayLoop_stop (stream : subtaskapi.WatchSubscriptionTasksClient)
    (ch : chan) (lg : list error) :
  chan_closed ch = false ->
  match stream with
  | [] => True
  | r :: _ => relayed r = false
  end ->
  relayLoop stream ch lg
    = match stream with
      | [] => {| status := Receiving; sink := ch; logged := lg |}
      | r :: _ =>
          if terminal (snd r)
          then {| status := Exited; sink := ch ++ [ChanClose]; logged := lg |}
          else {| status := Panicked NilDereference; sink := ch;
                  logged := lg ++ error_of r |}
      end.
Proof.
  intros Hopen Hr. destruct stream as [|[resp err] rest]; [reflexivity|].
  cbn [snd]. destruct (terminal err) eqn:Ht.
  - now apply relayLoop_terminal.
  - etransitivity; [exact (relayLoop_step resp err rest ch lg Ht Hopen)|].
    unfold relayed, has_response in Hr; cbn [fst snd] in Hr. rewrite Ht in Hr; cbn in Hr.
    destruct resp; [discriminate | reflexivity].
Qed.

(** The whole run of the loop on an open channel. *)
Lemma relayLoop_run (stream : subtaskapi.WatchSubscriptionTasksClient)
    (ch : chan) (lg : list error) :
  chan_closed ch = false ->
  let sent := ch ++ map ChanSend (flat_map event_of (relayed_prefix stream)) in
  let lg' := lg ++ flat_map error_of (relayed_prefix stream) in
  relayLoop stream ch lg
    = match stop_point stream with
      | [] => {| status := Receiving; sink := sent; logged := lg' |}
      | r :: _ =>
          if terminal (snd r)
          then {| status := Exited; sink := sent ++ [ChanClose]; logged := lg' |}
          else {| status := Panicked NilDereference; sink := sent;
                  logged := lg' ++ error_of r |}
      end.
Proof.
  intros Hopen sent lg'. subst sent lg'.
  destruct (relayed_prefix_split stream) as (Hs & Hp & Hr).
  rewrite Hs at 1.
  rewrite relayLoop_relayed_prefix by assumption.
  apply relayLoop_stop; [|exact Hr].
  rewrite chan_closed_app, Hopen, chan_closed_sends. reflexivity.
Qed.

Lemma chan_open_after_send (ch : chan) (e : subtaskapi.Event) :
  chan_closed ch = false -> chan_closed (ch ++ [ChanSend e]) = false.
Proof. intros H. rewrite chan_closed_app, H. reflexivity. Qed.

(** The loop leaves by [break] exactly when it reaches a terminal result. *)
Lemma relayLoop_exits (stream : subtaskapi.WatchSubscriptionTasksClient) :
  forall (ch : chan) (lg : list error),
    chan_closed ch = false ->
    (status (relayLoop stream ch lg) = Exited
     <-> ends stream = true /\ forallb has_response (before_terminal stream) = true).
Proof.
  induction stream as [|[resp err] rest IH]; intros ch lg Hopen.
  - cbn. split; [discriminate | intros [H _]; discriminate].
  - unfold ends in *. cbn [existsb before_terminal snd].
    destruct (terminal err) eqn:Ht.
    + rewrite relayLoop_terminal by assumption.
      cbn. split; auto.
    + rewrite relayLoop_step by assumption.
      cbn [orb forallb]. unfold has_response at 1; cbn [fst].
      destruct resp as [r|].
      * cbn [andb]. apply IH. now apply chan_open_after_send.
      * cbn. split; [discriminate | intros [_ H]; discriminate].
Qed.

(** The loop panics exactly when a non-terminal result before the first
    terminal one has no response. *)
Lemma relayLoop_panic_free (stream : subtaskapi.WatchSubscriptionTasksClient) :
  forall (ch : chan) (lg : list error),
    chan_closed ch = false ->
    ((forall p, status (relayLoop stream ch lg) <> Panicked p)
     <-> forallb has_response (before_terminal stream) = true).
Proof.
  induction stream as [|[resp err] rest IH]; intros ch lg Hopen.
  - cbn. split; [reflexivity | intros _ p; discriminate].
  - cbn [before_terminal snd].
    destruct (terminal err) eqn:Ht.
    + rewrite relayLoop_terminal by assumption.
      cbn. split; [reflexivity | intros _ p; discriminate].
    + rewrite relayLoop_step by assumption.
      cbn [forallb]. unfold has_response at 1; cbn [fst].
      destruct resp as [r|].
      * cbn [andb]. apply IH. now apply chan_open_after_send.
      * cbn. split; [intros H; exfalso; exact (H NilDereference eq_refl) | discriminate].
Qed.

(** The only panic of the loop on an open channel is the nil dereference. *)
Lemma relayLoop_panic_is_nil (stream : subtaskapi.WatchSubscriptionTasksClient)
    (ch : chan) (lg : list error) (p : panic) :
  chan_closed ch = false ->
  status (relayLoop stream ch lg) = Panicked p -> p = NilDereference.
Proof.
  intros Hopen. rewrite (relayLoop_run stream ch lg Hopen).
  destruct (stop_point stream) as [|r rest]; [discriminate|].
  destruct (terminal (snd r)); cbn; [discriminate | congruence].
Qed.

(** What is on the channel when the loop has run: what was there, one send
    for each relayed result in order, and one close if the loop exited. *)
Lemma relayLoop_sink (stream : subtaskapi.WatchSubscriptionTasksClient)
    (ch : chan) (lg : list error) :
  chan_closed ch = false ->
  sink (relayLoop stream ch lg)
    = ch ++ map ChanSend (flat_map event_of (relayed_prefix stream))
         ++ match status (relayLoop stream ch lg) with
            | Exited => [ChanClose]
            | _ => []
            end.
Proof.
  intros Hopen. rewrite (relayLoop_run stream ch lg Hopen).
  destruct (stop_point stream) as [|r rest]; cbn.
  - now rewrite app_nil_r.
  - destruct (terminal (snd r)); cbn.
    + now rewrite app_assoc.
    + now rewrite app_nil_r.
Qed.

(** C1, as the code has it. On an open channel the goroutine closes the
    channel at most once. It closes it, once and as the last operation on the
    channel, exactly when the loop reaches a receive that returns [io.EOF] or
    [context.Canceled]; as long as no receive returns one of these two, and
    whatever other errors are received, the channel is not closed. *)
Theorem relay_closes_sink_once_on_terminal
    (stream : subtaskapi.WatchSubscriptionTasksClient) (ch : chan) :
  chan_closed ch = false ->
  let t := relayTask (Some stream) ch in
  (status t = Exited
   <-> ends stream = true /\ forallb has_response (before_terminal stream) = true)
  /\ (status t = Exited ->
      chan_closes (sink t) = 1
      /\ exists sent, sink t = ch ++ map ChanSend sent ++ [ChanClose])
  /\ (status t <> Exited -> chan_closes (sink t) = 0)
  /\ (ends stream = false -> chan_closes (sink t) = 0).
Proof.
  intros Hopen t. subst t. cbn [relayTask].
  pose proof (relayLoop_exits stream ch [] Hopen) as Hexit.
  pose proof (relayLoop_sink stream ch [] Hopen) as Hsink.
  assert (Hcount : chan_closes (sink (relayLoop stream ch []))
                   = match status (relayLoop stream ch []) with
                     | Exited => 1
                     | _ => 0
                     end).
  { rewrite Hsink, !chan_closes_app, chan_closes_sends, (chan_closes_open ch Hopen).
    destruct (status (relayLoop stream ch [])); reflexivity. }
  repeat apply conj.
  - apply Hexit.
  - apply Hexit.
  - intros Hs. rewrite Hcount, Hs. split; [reflexivity|].
    rewrite Hsink, Hs. eexists; reflexivity.
  - intros Hs. rewrite Hcount.
    destruct (status (relayLoop stream ch [])); try reflexivity. now contradiction Hs.
  - intros He. rewrite Hcount.
    destruct (status (relayLoop stream ch [])) eqn:Hs; try reflexivity.
    destruct (proj1 Hexit eq_refl) as [Hends _]. congruence.
Qed.

Lemma relay_closes_sink_once_on_terminal_witness :
  chan_closed [] = false
  /\ status (relayTask (Some stream_clean) []) = Exited
  /\ chan_closes (sink (relayTask (Some stream_clean) [])) = 1
  /\ chan_closes (sink (relayTask (Some stream_error_with_response) [])) = 0.
Proof.
  pose proof (relay_closes_sink_once_on_terminal stream_clean [] eq_refl) as Hclean.
  pose proof (relay_closes_sink_once_on_terminal stream_error_with_response [] eq_refl)
    as Herr.
  cbv zeta in Hclean, Herr.
  destruct Hclean as [Hiff [Hexit _]].
  destruct Herr as [_ [_ [_ Hnever]]].
  assert (Hs : status (relayTask (Some stream_clean) []) = Exited).
  { apply Hiff. split; reflexivity. }
  split; [reflexivity|]. split; [exact Hs|]. split.
  - apply Hexit. exact Hs.
  - apply Hnever. reflexivity.
Defined.

(** C1 as stated fails: when the stream ends with a transport error, the
    goroutine logs it and does not close the channel; it dies on the missing
    response, or keeps receiving when the failed receive carries one. *)
Lemma relay_transport_error_leaves_sink_open :
  relayTask (Some stream_unavailable) []
    = {| status := Panicked NilDereference;
         sink := [ChanSend created_a];
         logged := [unavailable] |}
  /\ chan_closes (sink (relayTask (Some stream_unavailable) [])) <> 1
  /\ relayTask (Some stream_error_with_response) []
    = {| status := Receiving;
         sink := [ChanSend removed_b];
         logged := [unavailable] |}
  /\ chan_closes (sink (relayTask (Some stream_error_with_response) [])) <> 1.
Proof.
  repeat apply conj; try reflexivity; cbn; discriminate.
Qed.

(** C3, on the failing input. A receive that returns a non-terminal error
    and, as the generated stub does on error, no response: the goroutine
    logs the error and then panics on [resp.Event]; it receives nothing
    further and the channel is left as it was. *)
Theorem relay_error_without_response_panics
    (e : error) (rest : subtaskapi.WatchSubscriptionTasksClient)
    (ch : chan) (lg : list error) :
  terminal (Some e) = false ->
  relayLoop ((None, Some e) :: rest) ch lg
    = {| status := Panicked NilDereference; sink := ch; logged := lg ++ [e] |}.
Proof.
  intros Ht. cbn [relayLoop]. rewrite Ht. reflexivity.
Qed.

Lemma relay_error_without_response_panics_witness :
  terminal (Some unavailable) = false
  /\ relayLoop ((None, Some unavailable) :: stream_clean) [] []
     = {| status := Panicked NilDereference; sink := []; logged := [unavailable] |}.
Proof.
  split.
  - reflexivity.
  - apply (relay_error_without_response_panics unavailable stream_clean [] []).
    reflexivity.
Defined.

(** The same error on a receive that carries a response: the goroutine logs
    it, sends the event of that response and goes on receiving. *)
Lemma relay_error_with_response_continues
    (r : subtaskapi.WatchSubscriptionTasksResponse) (e : error)
    (rest : subtaskapi.WatchSubscriptionTasksClient) (ch : chan) (lg : list error) :
  terminal (Some e) = false ->
  chan_closed ch = false ->
  relayLoop ((Some r, Some e) :: rest) ch lg
    = relayLoop rest (ch ++ [ChanSend (subtaskapi.Event_ r)]) (lg ++ [e]).
Proof.
  intros Ht Hopen. rewrite relayLoop_step by assumption.
  unfold error_of; cbn [snd]. rewrite Ht. reflexivity.
Qed.

Lemma received_relayed (evs : list subtaskapi.Event) :
  forallb relayed (map received evs) = true
  /\ flat_map event_of (map received evs) = evs
  /\ flat_map error_of (map received evs) = [].
Proof.
  induction evs as [|e evs (Hr & He & Hl)]; cbn; auto.
  rewrite Hr, He, Hl. auto.
Qed.

(** C4. When the stream yields the events [evs] in successful receives, the
    goroutine sends exactly these events on the channel, one send per event
    and in the order received, before anything else it does; and when the
    stream then ends, blocks or fails, these sends, followed at most by the
    closing of the channel, are all the goroutine does to it. *)
Theorem relay_delivers_received_in_order
    (evs : list subtaskapi.Event) (rest : subtaskapi.WatchSubscriptionTasksClient)
    (ch : chan) :
  chan_closed ch = false ->
  let t := relayTask (Some (map received evs ++ rest)) ch in
  (exists more, sink t = ch ++ map ChanSend evs ++ more)
  /\ (stops_loop rest = true ->
      chan_events (sink t) = chan_events ch ++ evs
      /\ (sink t = ch ++ map ChanSend evs
          \/ sink t = ch ++ map ChanSend evs ++ [ChanClose])).
Proof.
  intros Hopen t. subst t. cbn [relayTask].
  destruct (received_relayed evs) as (Hr & He & Hl).
  rewrite relayLoop_relayed_prefix by assumption.
  rewrite He, Hl.
  assert (Hopen' : chan_closed (ch ++ map ChanSend evs) = false).
  { rewrite chan_closed_app, Hopen, chan_closed_sends. reflexivity. }
  split.
  - rewrite (relayLoop_sink rest _ _ Hopen'). rewrite <- app_assoc. eexists; reflexivity.
  - intros Hstop.
    rewrite relayLoop_stop; [| exact Hopen' |].
    + destruct rest as [|r rest']; cbn [sink].
      * split; [|left; reflexivity].
        now rewrite chan_events_app, chan_events_sends.
      * destruct (terminal (snd r)); cbn [sink].
        -- split; [|right; now rewrite app_assoc].
           rewrite !chan_events_app, chan_events_sends. cbn. now rewrite app_nil_r.
        -- split; [|left; reflexivity].
           now rewrite chan_events_app, chan_events_sends.
    + destruct rest as [|r rest']; [exact I|].
      cbn in Hstop. now apply negb_true_iff in Hstop.
Qed.

Lemma relay_delivers_received_in_order_witness :
  chan_closed [] = false
  /\ stops_loop [(None, Some io_EOF)] = true
  /\ chan_events (sink (relayTask (Some stream_clean) [])) = [created_a; removed_b]
  /\ (sink (relayTask (Some stream_clean) []) = map ChanSend [created_a; removed_b]
      \/ sink (relayTask (Some stream_clean) [])
         = map ChanSend [created_a; removed_b] ++ [ChanClose]).
Proof.
  split; [reflexivity|]. split; [reflexivity|].
  apply (relay_delivers_received_in_order [created_a; removed_b] [(None, Some io_EOF)] []);
    reflexivity.
Defined.

Lemma responses_before_terminal (stream : subtaskapi.WatchSubscriptionTasksClient) :
  (forall r, In r stream -> terminal (snd r) = false -> fst r <> None) ->
  forallb has_response (before_terminal stream) = true.
Proof.
  induction stream as [|r rest IH]; intros H; cbn; [reflexivity|].
  destruct (terminal (snd r)) eqn:Ht; [reflexivity|].
  cbn. rewrite IH by (intros r' Hin; apply H; now right).
  unfold has_response. specialize (H r (or_introl eq_refl) Ht).
  destruct (fst r); [reflexivity | now contradiction H].
Qed.

(** C8. Every iteration whose receive result is not terminal goes on to
    [ch <- resp.Event], with or without an error in that result: it sends
    the event when there is a response and panics on the nil pointer when
    there is none. The goroutine is therefore free of panics exactly when
    every receive before the first terminal one carries a response, which
    holds in particular when every non-terminal receive does. *)
Theorem relay_sends_on_every_nonterminal_iteration
    (stream : subtaskapi.WatchSubscriptionTasksClient) (ch : chan) :
  chan_closed ch = false ->
  (forall resp err rest lg,
      terminal err = false ->
      relayLoop ((resp, err) :: rest) ch lg
        = match resp with
          | Some r => relayLoop rest (ch ++ [ChanSend (subtaskapi.Event_ r)])
                                (lg ++ error_of (resp, err))
          | None => {| status := Panicked NilDereference; sink := ch;
                       logged := lg ++ error_of (resp, err) |}
          end)
  /\ ((forall p, status (relayTask (Some stream) ch) <> Panicked p)
      <-> forallb has_response (before_terminal stream) = true)
  /\ ((forall r, In r stream -> terminal (snd r) = false -> fst r <> None) ->
      forall p, status (relayTask (Some stream) ch) <> Panicked p)
  /\ (forall p, status (relayTask (Some stream) ch) = Panicked p -> p = NilDereference).
Proof.
  intros Hopen. cbn [relayTask]. repeat apply conj.
  - intros resp err rest lg Ht. now apply relayLoop_step.
  - apply (relayLoop_panic_free stream ch [] Hopen).
  - apply (relayLoop_panic_free stream ch [] Hopen).
  - intros H. apply (relayLoop_panic_free stream ch [] Hopen).
    now apply responses_before_terminal.
  - intros p. now apply relayLoop_panic_is_nil.
Qed.

Lemma relay_sends_on_every_nonterminal_iteration_witness :
  chan_closed [] = false
  /\ relayLoop stream_error_with_response [] []
     = relayLoop [] [ChanSend removed_b] [unavailable]
  /\ relayLoop [(None, Some unavailable)] [] []
     = {| status := Panicked NilDereference; sink := []; logged := [unavailable] |}
  /\ (forall p, status (relayTask (Some stream_clean) []) <> Panicked p).
Proof.
  pose proof (relay_sends_on_every_nonterminal_iteration stream_clean [] eq_refl)
    as [Hstep [Hfree _]].
  split; [reflexivity|]. repeat apply conj.
  - apply (Hstep (Some {| subtaskapi.Event_ := removed_b |}) (Some unavailable) [] []).
    reflexivity.
  - apply (Hstep None (Some unavailable) [] []). reflexivity.
  - apply Hfree. reflexivity.
Defined.

(** * Further properties of the client *)

(** ** Filter options, continued *)

Lemma rangeApplyList_app (l1 l2 : list FilterOption) (options : listOptions) :
  rangeApplyList (l1 ++ l2) options = rangeApplyList l2 (rangeApplyList l1 options).
Proof.
  revert options; induction l1 as [|opt l1 IH]; intros options; cbn; auto.
Qed.

Lemma rangeApplyWatch_app (l1 l2 : list FilterOption) (options : watchOptions) :
  rangeApplyWatch (l1 ++ l2) options = rangeApplyWatch l2 (rangeApplyWatch l1 options).
Proof.
  revert options; induction l1 as [|opt l1 IH]; intros options; cbn; auto.
Qed.

(** X3. Two adjacent options that filter on different fields can be swapped
    anywhere in the option list without changing the request that [List] or
    [Watch] builds. *)
Theorem options_on_different_fields_commute
    (pre post : list FilterOption) (sub : subapi.ID) (ep : epapi.ID) :
  listRequest (pre ++ WithSubscriptionID sub :: WithEndpointID ep :: post)
    = listRequest (pre ++ WithEndpointID ep :: WithSubscriptionID sub :: post)
  /\ watchRequest (pre ++ WithSubscriptionID sub :: WithEndpointID ep :: post)
    = watchRequest (pre ++ WithEndpointID ep :: WithSubscriptionID sub :: post).
Proof.
  unfold listRequest, watchRequest.
  rewrite !rangeApplyList_app, !rangeApplyWatch_app. split; reflexivity.
Qed.

(** X4. From the same options, [List] and [Watch] build requests with the
    same subscription filter and the same endpoint filter, although each
    goes through its own options struct and apply methods. *)
Theorem list_and_watch_filters_agree (opts : list FilterOption) :
  subtaskapi.list_SubscriptionID (listRequest opts)
    = subtaskapi.watch_SubscriptionID (watchRequest opts)
  /\ subtaskapi.list_EndpointID (listRequest opts)
    = subtaskapi.watch_EndpointID (watchRequest opts).
Proof.
  unfold listRequest, watchRequest; cbn.
  destruct (rangeApplyList_last opts zero_listOptions) as [Hls Hle].
  destruct (rangeApplyWatch_last opts zero_watchOptions) as [Hws Hwe].
  rewrite Hls, Hle, Hws, Hwe. split; reflexivity.
Qed.

Lemma lastEndpointID_none (opts : list FilterOption) :
  (forall id, ~ In (WithEndpointID id) opts) -> lastEndpointID opts = None.
Proof.
  induction opts as [|opt rest IH]; intros H; cbn; [reflexivity|].
  rewrite IH by (intros id Hin; apply (H id); now right).
  destruct opt as [o|[id]]; [reflexivity|].
  exfalso. apply (H id). now left.
Qed.

Lemma lastSubscriptionID_none (opts : list FilterOption) :
  (forall id, ~ In (WithSubscriptionID id) opts) -> lastSubscriptionID opts = None.
Proof.
  induction opts as [|opt rest IH]; intros H; cbn; [reflexivity|].
  rewrite IH by (intros id Hin; apply (H id); now right).
  destruct opt as [[id]|o]; [|reflexivity].
  exfalso. apply (H id). now left.
Qed.

(** X5. A field that no option writes stays empty in the request: options
    never set the field of the other kind. *)
Theorem unwritten_filter_field_stays_empty (opts : list FilterOption) :
  ((forall id, ~ In (WithEndpointID id) opts) ->
   subtaskapi.list_EndpointID (listRequest opts) = EmptyString
   /\ subtaskapi.watch_EndpointID (watchRequest opts) = EmptyString)
  /\ ((forall id, ~ In (WithSubscriptionID id) opts) ->
      subtaskapi.list_SubscriptionID (listRequest opts) = EmptyString
      /\ subtaskapi.watch_SubscriptionID (watchRequest opts) = EmptyString).
Proof.
  unfold listRequest, watchRequest; cbn.
  destruct (rangeApplyList_last opts zero_listOptions) as [Hls Hle].
  destruct (rangeApplyWatch_last opts zero_watchOptions) as [Hws Hwe].
  rewrite Hls, Hle, Hws, Hwe. split; intros H.
  - rewrite (lastEndpointID_none opts H). split; reflexivity.
  - rewrite (lastSubscriptionID_none opts H). split; reflexivity.
Qed.

Lemma unwritten_filter_field_stays_empty_witness :
  subtaskapi.list_EndpointID
    (listRequest [WithSubscriptionID "sub-1"; WithSubscriptionID "sub-2"]) = EmptyString
  /\ subtaskapi.watch_SubscriptionID (watchRequest [WithEndpointID "ep-1"]) = EmptyString.
Proof.
  split.
  - apply (unwritten_filter_field_stays_empty
             [WithSubscriptionID "sub-1"; WithSubscriptionID "sub-2"]).
    intros id [H|[H|[]]]; discriminate H.
  - apply (unwritten_filter_field_stays_empty [WithEndpointID "ep-1"]).
    intros id [H|[]]; discriminate H.
Defined.

(** ** List and Get, continued *)

Lemma List_outcome (cn : option grpc.ClientConn)
    (stub : subtaskapi.E2SubscriptionTaskServiceClient)
    (ctx : Context) (opts : list FilterOption) :
  outcome (List {| conn := cn; client := Some stub |} ctx opts)
    = let answer := subtaskapi.ListSubscriptionTasks stub ctx (listRequest opts) in
      match snd answer, fst answer with
      | Some e, _ => Return ([], Some e)
      | None, Some r => Return (subtaskapi.Tasks r, None)
      | None, None => Panic NilDereference
      end.
Proof.
  unfold List, bind; cbn.
  destruct (subtaskapi.ListSubscriptionTasks stub ctx (listRequest opts)) as [resp err].
  destruct err; [reflexivity | destruct resp; reflexivity].
Qed.

(** X1. [List] returns the tasks of the service's response as they are, in
    the service's order, with a nil error. When the call fails it returns the
    service's error with no tasks, also when the answer carried a response.
    An answer with neither response nor error makes it panic. *)
Theorem List_returns_service_answer
    (cn : option grpc.ClientConn) (stub : subtaskapi.E2SubscriptionTaskServiceClient)
    (ctx : Context) (opts : list FilterOption) :
  let c := {| conn := cn; client := Some stub |} in
  let answer := subtaskapi.ListSubscriptionTasks stub ctx (listRequest opts) in
  (forall r, answer = (Some r, None) ->
             outcome (List c ctx opts) = Return (subtaskapi.Tasks r, None))
  /\ (forall resp e, answer = (resp, Some e) ->
                     outcome (List c ctx opts) = Return ([], Some e))
  /\ (forall tasks e, outcome (List c ctx opts) = Return (tasks, Some e) ->
                      tasks = [] /\ snd answer = Some e)
  /\ (answer = (None, None) -> outcome (List c ctx opts) = Panic NilDereference).
Proof.
  intros c answer. subst c answer. rewrite List_outcome. cbv zeta.
  destruct (subtaskapi.ListSubscriptionTasks stub ctx (listRequest opts)) as [resp [e|]];
    cbn [fst snd]; repeat apply conj.
  - discriminate.
  - intros resp' e' H; inversion H; reflexivity.
  - intros tasks e' H; inversion H; split; reflexivity.
  - discriminate.
  - intros r H; inversion H; reflexivity.
  - discriminate.
  - intros tasks e' H. destruct resp; discriminate.
  - intros H; inversion H; reflexivity.
Qed.

Lemma List_returns_service_answer_witness :
  outcome (List (client_of (simulated [task_b; task_a] [])) context_Background
             [WithSubscriptionID "sub-1"])
    = Return ([task_b; task_a], None)
  /\ outcome (List (client_of broken) context_Background []) = Return ([], Some unavailable).
Proof.
  split.
  - apply (List_returns_service_answer
             (Some {| grpc.Target := "onos-e2sub:5150" |})
             (simulated [task_b; task_a] []) context_Background
             [WithSubscriptionID "sub-1"])
      with (r := {| subtaskapi.Tasks := [task_b; task_a] |}).
    reflexivity.
  - apply (List_returns_service_answer
             (Some {| grpc.Target := "onos-e2sub:5150" |}) broken context_Background [])
      with (resp := None).
    reflexivity.
Defined.

(** X14. [Get] returns neither a task nor an error exactly when the service
    answers without error and with a response whose task pointer is nil. *)
Theorem Get_returns_nothing_iff_response_without_task
    (cn : option grpc.ClientConn) (stub : subtaskapi.E2SubscriptionTaskServiceClient)
    (ctx : Context) (id : subtaskapi.ID) :
  outcome (Get {| conn := cn; client := Some stub |} ctx id) = Return (None, None)
  <-> exists r,
        subtaskapi.GetSubscriptionTask stub ctx {| subtaskapi.get_ID := id |}
          = (Some r, None)
        /\ subtaskapi.Task r = None.
Proof.
  rewrite Get_outcome. cbv zeta.
  destruct (subtaskapi.GetSubscriptionTask stub ctx {| subtaskapi.get_ID := id |})
    as [resp [e|]]; cbn [fst snd].
  - split; [discriminate | intros [r [H _]]; discriminate].
  - destruct resp as [r|].
    + split.
      * intros H. exists r. split; [reflexivity | congruence].
      * intros [r' [H Ht]]. inversion H; subst r'. now rewrite Ht.
    + split; [discriminate | intros [r [H _]]; discriminate].
Qed.

Lemma Get_returns_nothing_iff_response_without_task_witness :
  outcome (Get (client_of taskless) context_Background "task-a") = Return (None, None).
Proof.
  apply (Get_returns_nothing_iff_response_without_task
           (Some {| grpc.Target := "onos-e2sub:5150" |}) taskless context_Background "task-a").
  exists {| subtaskapi.Task := None |}. split; reflexivity.
Defined.

(** ** Construction, continued *)

(** The client that comes with an error is the zero-valued one. *)
Lemma NewClient_error_client (env : Env) (ctx : Context) (dst : Destination)
    (cl : option localClient) (e : error) :
  outcome (NewClient env ctx dst) = Return (cl, Some e) -> cl = Some zero_localClient.
Proof.
  destruct (e2_GetClientCredentials env) as [cfg [ce|]] eqn:Hc.
  - rewrite (NewClient_no_credentials env ctx dst cfg ce Hc); cbn.
    intros H; inversion H; reflexivity.
  - destruct (Addrs dst) as [|addr more] eqn:Ha.
    + rewrite (NewClient_no_address env ctx dst cfg Hc Ha); cbn. discriminate.
    + destruct (NewClient_dials_first env ctx dst cfg addr more Hc Ha) as [_ Hout].
      rewrite Hout.
      destruct (grpc_DialContext env ctx addr
                  [grpc.WithTransportCredentials (credentials.NewTLS cfg)]) as [cc [de|]];
        intros H; inversion H; reflexivity.
Qed.

(** X2. The client that [NewClient] returns together with an error is not
    usable: [Get], [List] and [Watch] on it panic on the nil stub before
    making any call, and [Watch] does so without closing the channel. *)
Theorem failed_client_methods_panic
    (env : Env) (ctx : Context) (dst : Destination) (cl : localClient) (e : error)
    (ctx' : Context) (id : subtaskapi.ID) (opts : list FilterOption) (ch : chan) :
  outcome (NewClient env ctx dst) = Return (Some cl, Some e) ->
  Get cl ctx' id = {| calls := []; outcome := Panic NilDereference |}
  /\ List cl ctx' opts = {| calls := []; outcome := Panic NilDereference |}
  /\ Watch cl ctx' ch opts = {| calls := []; outcome := Panic NilDereference |}.
Proof.
  intros H. apply NewClient_error_client in H. inversion H; subst cl.
  repeat apply conj; reflexivity.
Qed.

Lemma failed_client_methods_panic_witness :
  outcome (NewClient env_unreachable context_Background {| Addrs := ["e2sub-0:5150"] |})
    = Return (Some zero_localClient, Some unavailable)
  /\ Watch zero_localClient context_Background [] [WithEndpointID "ep-1"]
     = {| calls := []; outcome := Panic NilDereference |}.
Proof.
  split; [reflexivity|].
  apply (failed_client_methods_panic env_unreachable context_Background
           {| Addrs := ["e2sub-0:5150"] |} zero_localClient unavailable
           context_Background "task-a" [WithEndpointID "ep-1"] []).
  reflexivity.
Defined.

(** X6. [NewClient] returns a nil error exactly when the credential
    provider succeeds, the address list has a first address and the dial of
    that address succeeds. The client it then returns holds the dialled
    connection and the stub built on that connection. Whenever [NewClient]
    returns at all, the client is a non-nil pointer. *)
Theorem NewClient_succeeds_iff
    (env : Env) (ctx : Context) (dst : Destination) :
  let opts := [grpc.WithTransportCredentials
                 (credentials.NewTLS (fst (e2_GetClientCredentials env)))] in
  ((exists cl, outcome (NewClient env ctx dst) = Return (cl, None))
   <-> snd (e2_GetClientCredentials env) = None
       /\ exists addr more,
            Addrs dst = addr :: more
            /\ snd (grpc_DialContext env ctx addr opts) = None)
  /\ (forall cl, outcome (NewClient env ctx dst) = Return (cl, None) ->
        exists addr more,
          Addrs dst = addr :: more
          /\ cl = Some {| conn := fst (grpc_DialContext env ctx addr opts);
                          client := Some (NewE2SubscriptionTaskServiceClient env
                                            (fst (grpc_DialContext env ctx addr opts))) |})
  /\ (forall cl err, outcome (NewClient env ctx dst) = Return (cl, err) -> cl <> None).
Proof.
  intros opts. subst opts.
  destruct (e2_GetClientCredentials env) as [cfg [ce|]] eqn:Hc; cbn [fst snd].
  - rewrite (NewClient_no_credentials env ctx dst cfg ce Hc); cbn.
    repeat apply conj.
    + intros [cl H]; discriminate.
    + intros [H _]; discriminate.
    + intros cl H; discriminate.
    + intros cl err H; inversion H; discriminate.
  - destruct (Addrs dst) as [|addr more] eqn:Ha.
    + rewrite (NewClient_no_address env ctx dst cfg Hc Ha); cbn.
      repeat apply conj.
      * intros [cl H]; discriminate.
      * intros [_ [a [m [H _]]]]; discriminate.
      * intros cl H; discriminate.
      * intros cl err H; discriminate.
    + destruct (NewClient_dials_first env ctx dst cfg addr more Hc Ha) as [_ Hout].
      rewrite Hout.
      destruct (grpc_DialContext env ctx addr
                  [grpc.WithTransportCredentials (credentials.NewTLS cfg)])
        as [cc [de|]] eqn:Hd.
      * repeat apply conj.
        -- intros [cl H]; discriminate.
        -- intros [_ [a [m [H Hs]]]]. inversion H; subst a m.
           rewrite Hd in Hs; discriminate.
        -- intros cl H; discriminate.
        -- intros cl err H; inversion H; discriminate.
      * repeat apply conj.
        -- intros _. split; [reflexivity|]. exists addr, more.
           split; [reflexivity|]. now rewrite Hd.
        -- intros _. eexists; reflexivity.
        -- intros cl H. inversion H. exists addr, more.
           split; [reflexivity|]. now rewrite Hd.
        -- intros cl err H; inversion H; discriminate.
Qed.

Lemma NewClient_succeeds_iff_witness :
  exists cl,
    outcome (NewClient env_ok context_Background
               {| Addrs := ["e2sub-0:5150"; "e2sub-1:5150"] |}) = Return (cl, None).
Proof.
  apply (NewClient_succeeds_iff env_ok context_Background
           {| Addrs := ["e2sub-0:5150"; "e2sub-1:5150"] |}).
  split; [reflexivity|].
  exists "e2sub-0:5150", ["e2sub-1:5150"]. split; reflexivity.
Defined.

(** X7. Every dial [NewClient] makes uses the context it was given and
    exactly one dial option, the transport credentials made from the TLS
    configuration the credential provider returned: it never dials without
    them. *)
Theorem NewClient_dials_with_tls_credentials
    (env : Env) (ctx : Context) (dst : Destination)
    (ctx' : Context) (target : string) (opts : list grpc.DialOption) :
  In (Call_DialContext ctx' target opts) (calls (NewClient env ctx dst)) ->
  ctx' = ctx
  /\ opts = [grpc.WithTransportCredentials
               (credentials.NewTLS (fst (e2_GetClientCredentials env)))]
  /\ snd (e2_GetClientCredentials env) = None.
Proof.
  destruct (e2_GetClientCredentials env) as [cfg [ce|]] eqn:Hc; cbn [fst snd].
  - rewrite (NewClient_no_credentials env ctx dst cfg ce Hc); cbn.
    intros [H|[]]; discriminate.
  - destruct (Addrs dst) as [|addr more] eqn:Ha.
    + rewrite (NewClient_no_address env ctx dst cfg Hc Ha); cbn.
      intros [H|[]]; discriminate.
    + destruct (NewClient_dials_first env ctx dst cfg addr more Hc Ha) as [Hcalls _].
      rewrite Hcalls; cbn.
      intros [H|[H|[]]]; [discriminate|]. inversion H. repeat split.
Qed.

Lemma NewClient_dials_with_tls_credentials_witness :
  In (Call_DialContext context_Background "e2sub-0:5150"
        [grpc.WithTransportCredentials
           (credentials.NewTLS (Some {| tls.ServerName := "onos" |}))])
     (calls (NewClient env_ok context_Background {| Addrs := ["e2sub-0:5150"] |}))
  /\ snd (e2_GetClientCredentials env_ok) = None.
Proof.
  assert (Hin : In (Call_DialContext context_Background "e2sub-0:5150"
                      [grpc.WithTransportCredentials
                         (credentials.NewTLS (Some {| tls.ServerName := "onos" |}))])
                   (calls (NewClient env_ok context_Background
                             {| Addrs := ["e2sub-0:5150"] |}))).
  { right; left; reflexivity. }
  split; [exact Hin|].
  apply (NewClient_dials_with_tls_credentials env_ok context_Background
           {| Addrs := ["e2sub-0:5150"] |} context_Background "e2sub-0:5150" _ Hin).
Defined.

(** ** Watch and its goroutine, continued *)

Lemma relayLoop_closes_at_most_once (stream : subtaskapi.WatchSubscriptionTasksClient)
    (ch : chan) (lg : list error) :
  chan_closed ch = false ->
  chan_closes (sink (relayLoop stream ch lg)) <= 1.
Proof.
  intros Hopen. rewrite (relayLoop_sink stream ch lg Hopen).
  rewrite !chan_closes_app, chan_closes_sends, (chan_closes_open ch Hopen).
  destruct (status (relayLoop stream ch lg)); cbn; lia.
Qed.

Lemma relayLoop_sink_extends (stream : subtaskapi.WatchSubscriptionTasksClient) :
  forall (ch : chan) (lg : list error),
    exists more, sink (relayLoop stream ch lg) = ch ++ more.
Proof.
  induction stream as [|[resp err] rest IH]; intros ch lg; cbn [relayLoop].
  - exists []. cbn. now rewrite app_nil_r.
  - destruct (terminal err).
    + unfold chan_close. destruct (chan_closed ch); cbn.
      * exists []. now rewrite app_nil_r.
      * eexists; reflexivity.
    + destruct resp as [r|]; cbn [deref].
      * unfold chan_send. destruct (chan_closed ch); cbn [sink].
        -- exists []. now rewrite app_nil_r.
        -- destruct (IH (ch ++ [ChanSend (subtaskapi.Event_ r)])
                        match err with Some e => lg ++ [e] | None => lg end)
             as [more Hmore].
           rewrite Hmore, <- app_assoc. eexists; reflexivity.
      * exists []. cbn. now rewrite app_nil_r.
Qed.

(** X8. Over a whole call of [Watch] on an open channel, the synchronous
    part and the goroutine together, the channel is only appended to and is
    closed at most once; when [Watch] returns an error, the close is the only
    thing done to it. *)
Theorem Watch_closes_channel_at_most_once
    (cn : option grpc.ClientConn) (stub : subtaskapi.E2SubscriptionTaskServiceClient)
    (ctx : Context) (ch : chan) (opts : list FilterOption) (w : watched) :
  chan_closed ch = false ->
  outcome (Watch {| conn := cn; client := Some stub |} ctx ch opts) = Return w ->
  chan_closes (watch_final w) <= 1
  /\ (exists more, watch_final w = ch ++ more)
  /\ (watch_err w <> None -> watch_final w = ch ++ [ChanClose]).
Proof.
  intros Hopen. unfold Watch, bind; cbn.
  destruct (subtaskapi.WatchSubscriptionTasks stub ctx (watchRequest opts))
    as [stream [e|]]; cbn.
  - rewrite (chan_close_open ch Hopen); cbn.
    intros H; inversion H; subst w. unfold watch_final, watch_task; cbn.
    rewrite chan_closes_app, (chan_closes_open ch Hopen); cbn.
    repeat apply conj; [lia | eexists; reflexivity | reflexivity].
  - intros H; inversion H; subst w. unfold watch_final, watch_task; cbn.
    destruct stream as [s|]; cbn.
    + repeat apply conj.
      * now apply relayLoop_closes_at_most_once.
      * apply relayLoop_sink_extends.
      * intros Hne; now contradiction Hne.
    + rewrite (chan_closes_open ch Hopen).
      repeat apply conj; [lia | exists []; now rewrite app_nil_r |].
      intros Hne; now contradiction Hne.
Qed.

Lemma Watch_closes_channel_at_most_once_witness :
  chan_closed [] = false
  /\ (exists w,
        outcome (Watch (client_of (simulated [] stream_mixed)) context_Background [] [])
          = Return w
        /\ chan_closes (watch_final w) <= 1).
Proof.
  split; [reflexivity|].
  eexists. split; [reflexivity|].
  apply (Watch_closes_channel_at_most_once
           (Some {| grpc.Target := "onos-e2sub:5150" |})
           (simulated [] stream_mixed) context_Background [] []);
    reflexivity.
Defined.

Lemma relayLoop_logged_nonterminal (stream : subtaskapi.WatchSubscriptionTasksClient) :
  forall (ch : chan) (lg : list error) (e : error),
    In e (logged (relayLoop stream ch lg)) -> In e lg \/ terminal (Some e) = false.
Proof.
  induction stream as [|[resp err] rest IH]; intros ch lg e; cbn [relayLoop].
  - cbn. auto.
  - destruct (terminal err) eqn:Ht.
    + destruct (chan_close ch); cbn; auto.
    + assert (Hlg : forall x, In x match err with Some e' => lg ++ [e'] | None => lg end ->
                              In x lg \/ terminal (Some x) = false).
      { intros x Hx. destruct err as [e'|]; [|auto].
        apply in_app_or in Hx as [Hx|[Hx|[]]]; [auto | subst x; auto]. }
      destruct resp as [r|]; cbn [deref].
      * destruct (chan_send ch (subtaskapi.Event_ r)); cbn [logged].
        -- intros H. apply IH in H as [H|H]; auto.
        -- apply Hlg.
      * cbn [logged]. apply Hlg.
Qed.

Lemma relayLoop_with_responses (stream : subtaskapi.WatchSubscriptionTasksClient) :
  forall (ch : chan) (lg : list error),
    chan_closed ch = false ->
    forallb has_response (before_terminal stream) = true ->
    relayLoop stream ch lg
      = {| status := if ends stream then Exited else Receiving;
           sink := ch ++ map ChanSend (flat_map event_of (before_terminal stream))
                      ++ (if ends stream then [ChanClose] else []);
           logged := lg ++ flat_map error_of (before_terminal stream) |}.
Proof.
  induction stream as [|[resp err] rest IH]; intros ch lg Hopen Hresp.
  - cbn. now rewrite !app_nil_r.
  - unfold ends in *. cbn [existsb before_terminal snd] in *.
    destruct (terminal err) eqn:Ht.
    + rewrite relayLoop_terminal by assumption. cbn. now rewrite app_nil_r.
    + rewrite relayLoop_step by assumption.
      cbn [forallb] in Hresp. apply andb_true_iff in Hresp as [Hr Hrest].
      unfold has_response in Hr; cbn [fst] in Hr.
      destruct resp as [r|]; [|discriminate].
      rewrite IH; [| now apply chan_open_after_send | exact Hrest].
      cbn [orb flat_map event_of fst app map].
      now rewrite <- !app_assoc.
Qed.

(** X9. The goroutine never logs [io.EOF] or [context.Canceled]. On an open
    channel and a stream whose receives carry responses up to the first
    terminal one, what it logs is exactly the errors of those receives, in
    the order received. *)
Theorem relay_logs_nonterminal_errors
    (stream : subtaskapi.WatchSubscriptionTasksClient) (ch : chan) :
  (forall e, In e (logged (relayTask (Some stream) ch)) ->
             e <> io_EOF /\ e <> context_Canceled)
  /\ (chan_closed ch = false ->
      forallb has_response (before_terminal stream) = true ->
      logged (relayTask (Some stream) ch) = flat_map error_of (before_terminal stream)).
Proof.
  cbn [relayTask]. split.
  - intros e H. apply relayLoop_logged_nonterminal in H as [[]|H].
    split; intros ->; discriminate H.
  - intros Hopen Hresp. now rewrite relayLoop_with_responses.
Qed.

Lemma relay_logs_nonterminal_errors_witness :
  chan_closed [] = false
  /\ forallb has_response (before_terminal stream_mixed) = true
  /\ logged (relayTask (Some stream_mixed) []) = [unavailable].
Proof.
  split; [reflexivity|]. split; [reflexivity|].
  apply (relay_logs_nonterminal_errors stream_mixed []); reflexivity.
Defined.

(** X12. On an open channel and a stream whose receives carry responses up
    to the first terminal one, the goroutine sends the event of every
    receive before that terminal one, failed or not, each once and in order,
    then closes the channel and returns if there is a terminal receive, and
    is left receiving if there is none. *)
Theorem relay_forwards_every_response_before_terminal
    (stream : subtaskapi.WatchSubscriptionTasksClient) (ch : chan) :
  chan_closed ch = false ->
  forallb has_response (before_terminal stream) = true ->
  status (relayTask (Some stream) ch) = (if ends stream then Exited else Receiving)
  /\ sink (relayTask (Some stream) ch)
     = ch ++ map ChanSend (flat_map event_of (before_terminal stream))
          ++ (if ends stream then [ChanClose] else []).
Proof.
  intros Hopen Hresp. cbn [relayTask].
  rewrite relayLoop_with_responses by assumption. split; reflexivity.
Qed.

Lemma relay_forwards_every_response_before_terminal_witness :
  chan_closed [] = false
  /\ forallb has_response (before_terminal stream_mixed) = true
  /\ status (relayTask (Some stream_mixed) []) = Exited
  /\ sink (relayTask (Some stream_mixed) [])
     = [ChanSend created_a; ChanSend removed_b; ChanSend created_a; ChanClose].
Proof.
  split; [reflexivity|]. split; [reflexivity|].
  apply (relay_forwards_every_response_before_terminal stream_mixed []); reflexivity.
Defined.

Lemma relayLoop_after_terminal (pre : subtaskapi.WatchSubscriptionTasksClient) :
  forall (last : subtaskapi.RecvResult)
         (rest rest' : subtaskapi.WatchSubscriptionTasksClient)
         (ch : chan) (lg : list error),
    terminal (snd last) = true ->
    relayLoop (pre ++ last :: rest) ch lg = relayLoop (pre ++ last :: rest') ch lg.
Proof.
  induction pre as [|[resp err] pre IH]; intros [lresp lerr] rest rest' ch lg Ht.
  - cbn in *. now rewrite Ht.
  - cbn [app relayLoop].
    destruct (terminal err); [reflexivity|].
    destruct resp as [r|]; cbn [deref]; [|reflexivity].
    destruct (chan_send ch (subtaskapi.Event_ r)); [|reflexivity].
    now apply IH.
Qed.

(** X10. Nothing that the stream holds after a receive returning [io.EOF]
    or [context.Canceled] has any effect: the goroutine ends up the same
    whatever follows that receive, so no event is sent after it. *)
Theorem relay_ignores_stream_after_terminal
    (pre : subtaskapi.WatchSubscriptionTasksClient) (last : subtaskapi.RecvResult)
    (rest : subtaskapi.WatchSubscriptionTasksClient) (ch : chan) :
  terminal (snd last) = true ->
  relayTask (Some (pre ++ last :: rest)) ch = relayTask (Some (pre ++ [last])) ch.
Proof.
  intros Ht. cbn [relayTask]. now apply relayLoop_after_terminal.
Qed.

Lemma relay_ignores_stream_after_terminal_witness :
  terminal (snd (None : option subtaskapi.WatchSubscriptionTasksResponse,
                 Some context_Canceled)) = true
  /\ relayTask (Some stream_cancelled) []
     = relayTask (Some [received created_a; (None, Some context_Canceled)]) [].
Proof.
  split; [reflexivity|].
  apply (relay_ignores_stream_after_terminal
           [received created_a] (None, Some context_Canceled) [received removed_b] []).
  reflexivity.
Defined.

Lemma relayLoop_compose (s1 : subtaskapi.WatchSubscriptionTasksClient) :
  forall (s2 : subtaskapi.WatchSubscriptionTasksClient) (ch : chan) (lg : list error),
    relayLoop (s1 ++ s2) ch lg
      = match status (relayLoop s1 ch lg) with
        | Receiving => relayLoop s2 (sink (relayLoop s1 ch lg)) (logged (relayLoop s1 ch lg))
        | _ => relayLoop s1 ch lg
        end.
Proof.
  induction s1 as [|[resp err] s1 IH]; intros s2 ch lg.
  - reflexivity.
  - cbn [app relayLoop].
    destruct (terminal err).
    + destruct (chan_close ch); reflexivity.
    + destruct resp as [r|]; cbn [deref]; [|reflexivity].
      destruct (chan_send ch (subtaskapi.Event_ r)); [|reflexivity].
      apply IH.
Qed.

(** X13. Running the goroutine on a stream that goes on after [s1] is
    running it on [s1] and, if that leaves it receiving, continuing on what
    follows from the channel and log reached; once it has exited or panicked
    on [s1], what follows changes nothing. In every case the channel after
    the longer stream extends the channel after [s1]. *)
Theorem relay_continues_from_where_it_stands
    (s1 s2 : subtaskapi.WatchSubscriptionTasksClient) (ch : chan) :
  let t1 := relayTask (Some s1) ch in
  relayTask (Some (s1 ++ s2)) ch
    = match status t1 with
      | Receiving => relayLoop s2 (sink t1) (logged t1)
      | _ => t1
      end
  /\ exists more, sink (relayTask (Some (s1 ++ s2)) ch) = sink t1 ++ more.
Proof.
  intros t1. subst t1. cbn [relayTask].
  rewrite (relayLoop_compose s1 s2 ch []).
  split; [reflexivity|].
  destruct (status (relayLoop s1 ch [])).
  - apply relayLoop_sink_extends.
  - exists []. now rewrite app_nil_r.
  - exists []. now rewrite app_nil_r.
Qed.

(** X11. On a channel that is already closed, [Watch] panics on
    [close(ch)] instead of returning the error of a failed stream-open, and
    the goroutine panics in its first iteration, on the close for a terminal
    receive, on the send for a receive with a response, and on the nil
    response otherwise; the channel is left as it was. *)
Theorem closed_channel_makes_watch_panic
    (cn : option grpc.ClientConn) (stub : subtaskapi.E2SubscriptionTaskServiceClient)
    (ctx : Context) (ch : chan) (opts : list FilterOption) :
  chan_closed ch = true ->
  (forall e, snd (subtaskapi.WatchSubscriptionTasks stub ctx (watchRequest opts)) = Some e ->
     outcome (Watch {| conn := cn; client := Some stub |} ctx ch opts)
       = Panic CloseOfClosedChannel)
  /\ (forall r rest,
        relayTask (Some (r :: rest)) ch
          = {| status := Panicked (if terminal (snd r) then CloseOfClosedChannel
                                   else if has_response r then SendOnClosedChannel
                                        else NilDereference);
               sink := ch;
               logged := error_of r |}).
Proof.
  intros Hclosed. split.
  - intros e He. unfold Watch, bind; cbn.
    destruct (subtaskapi.WatchSubscriptionTasks stub ctx (watchRequest opts))
      as [stream err]; cbn [snd] in He; subst err; cbn.
    unfold chan_close. rewrite Hclosed. reflexivity.
  - intros [resp err] rest. cbn [relayTask relayLoop snd].
    unfold error_of, has_response; cbn [fst snd].
    destruct (terminal err) eqn:Ht.
    + unfold chan_close. rewrite Hclosed.
      destruct err as [e|]; [rewrite Ht|]; reflexivity.
    + destruct resp as [r|]; cbn [deref].
      * unfold chan_send. rewrite Hclosed.
        destruct err as [e|]; [rewrite Ht|]; reflexivity.
      * destruct err as [e|]; [rewrite Ht|]; reflexivity.
Qed.

Lemma closed_channel_makes_watch_panic_witness :
  chan_closed closed_chan = true
  /\ outcome (Watch (client_of broken) context_Background closed_chan [])
     = Panic CloseOfClosedChannel
  /\ relayTask (Some stream_clean) closed_chan
     = {| status := Panicked SendOnClosedChannel; sink := closed_chan; logged := [] |}.
Proof.
  split; [reflexivity|].
  destruct (closed_channel_makes_watch_panic
              (Some {| grpc.Target := "onos-e2sub:5150" |}) broken
              context_Background closed_chan [] eq_refl) as [Hwatch Hrelay].
  split.
  - apply (Hwatch unavailable). reflexivity.
  - apply (Hrelay (received created_a) [received removed_b; (None, Some io_EOF)]).
Defined.

(** The client that comes with a nil error holds a stub. *)
Lemma NewClient_ok_client (env : Env) (ctx : Context) (dst : Destination)
    (cl : option localClient) :
  outcome (NewClient env ctx dst) = Return (cl, None) ->
  exists cc, cl = Some {| conn := cc;
                          client := Some (NewE2SubscriptionTaskServiceClient env cc) |}.
Proof.
  destruct (e2_GetClientCredentials env) as [cfg [ce|]] eqn:Hc.
  - rewrite (NewClient_no_credentials env ctx dst cfg ce Hc); cbn. discriminate.
  - destruct (Addrs dst) as [|addr more] eqn:Ha.
    + rewrite (NewClient_no_address env ctx dst cfg Hc Ha); cbn. discriminate.
    + destruct (NewClient_dials_first env ctx dst cfg addr more Hc Ha) as [_ Hout].
      rewrite Hout.
      destruct (grpc_DialContext env ctx addr
                  [grpc.WithTransportCredentials (credentials.NewTLS cfg)]) as [cc [de|]];
        intros H; inversion H. eexists; reflexivity.
Qed.

(** X15. On a client that [NewClient] returned with a nil error, [Get],
    [List] and [Watch] each make exactly one call, carrying the identifier or
    the filters built from the options, and none of them panics on the
    client itself: [Watch] on an open channel always returns. *)
Theorem created_client_methods_call_service
    (env : Env) (ctx : Context) (dst : Destination) (cl : localClient)
    (ctx' : Context) (id : subtaskapi.ID) (opts : list FilterOption) (ch : chan) :
  outcome (NewClient env ctx dst) = Return (Some cl, None) ->
  calls (Get cl ctx' id) = [Call_GetSubscriptionTask ctx' {| subtaskapi.get_ID := id |}]
  /\ calls (List cl ctx' opts) = [Call_ListSubscriptionTasks ctx' (listRequest opts)]
  /\ calls (Watch cl ctx' ch opts) = [Call_WatchSubscriptionTasks ctx' (watchRequest opts)]
  /\ (chan_closed ch = false -> exists w, outcome (Watch cl ctx' ch opts) = Return w).
Proof.
  intros H. apply NewClient_ok_client in H as [cc H]. inversion H; subst cl.
  repeat apply conj.
  - apply Get_calls.
  - apply List_calls.
  - apply Watch_calls.
  - intros Hopen. unfold Watch, bind; cbn.
    destruct (subtaskapi.WatchSubscriptionTasks
                (NewE2SubscriptionTaskServiceClient env cc) ctx' (watchRequest opts))
      as [stream [e|]]; cbn.
    + rewrite (chan_close_open ch Hopen); cbn. eexists; reflexivity.
    + eexists; reflexivity.
Qed.

Lemma created_client_methods_call_service_witness :
  outcome (NewClient env_ok context_Background {| Addrs := ["e2sub-0:5150"] |})
    = Return (Some {| conn := Some {| grpc.Target := "e2sub-0:5150" |};
                      client := Some (simulated [task_a; task_b] []) |}, None)
  /\ calls (List {| conn := Some {| grpc.Target := "e2sub-0:5150" |};
                    client := Some (simulated [task_a; task_b] []) |}
              context_Background [WithEndpointID "ep-1"])
     = [Call_ListSubscriptionTasks context_Background
          {| subtaskapi.list_SubscriptionID := EmptyString;
             subtaskapi.list_EndpointID := "ep-1" |}].
Proof.
  split; [reflexivity|].
  apply (created_client_methods_call_service env_ok context_Background
           {| Addrs := ["e2sub-0:5150"] |}
           {| conn := Some {| grpc.Target := "e2sub-0:5150" |};
              client := Some (simulated [task_a; task_b] []) |}
           context_Background "task-a" [WithEndpointID "ep-1"] []).
  reflexivity.
Defined.
